(** * New-job capabilities of the ML plugin: fields and aggregations

    A shallow embedding of
    [x-pack/legacy/plugins/ml/server/models/job_service/new_job_caps/field_service.ts]
    and the properties of its [getData] entry point.

    Conventions of the embedding.
    - A JavaScript object that the code enumerates with [Object.keys] is
      given by its own entries in enumeration order (an association list
      whose keys are pairwise distinct); an object that is only indexed is a
      [gmap] of its own properties; indexing it with a name that it does
      not own answers [undefined], or the member every object inherits under
      that name (such as [constructor]).
    - [Field] and [Aggregation] objects reference one another after
      cross-referencing.  They live in a [Store]; a reference is the
      position of the object in its array, and [push] on the list held by
      an object updates the store in place.
    - The two collaborators ([callWithRequest] and the rollup service) are
      the [World]; [getData] is a program over calls to them, and running
      it yields the calls made, in order, and a result, or the failure it
      rejects with: a collaborator's, or a [TypeError] thrown on the way. *)

From Stdlib Require Import ZArith Lia.
From stdpp Require Import base strings list gmap sorting.

Local Open Scope string_scope.
Local Open Scope list_scope.

(** ** JavaScript values at the places where the code tests them *)

(** [JsObject x] is an own value of the kind the code expects at that
    place (an array); [JsInherited] is a member inherited from
    [Object.prototype]: a function, or the prototype itself. *)
Inductive JsValue (A : Type) : Type :=
  | JsNull
  | JsUndefined
  | JsObject (x : A)
  | JsInherited.
Arguments JsNull {A}.
Arguments JsUndefined {A}.
Arguments JsObject {A} x.
Arguments JsInherited {A}.

(** What a collaborator fails with, and what the engine throws when a
    value that is not a function is called (the text of its message is left
    out). *)
Inductive Exn :=
  | ServiceError (message : string)
  | TypeError.

(** [v === null] *)
Definition strict_eq_null {A} (v : JsValue A) : bool :=
  match v with JsNull => true | _ => false end.

(** [v === undefined] *)
Definition strict_eq_undefined {A} (v : JsValue A) : bool :=
  match v with JsUndefined => true | _ => false end.

(** An object, an array or a function is truthy, [null] and [undefined]
    are not. *)
Definition truthy {A} (v : JsValue A) : bool :=
  match v with JsObject _ | JsInherited => true | _ => false end.

(** [Array.prototype.find]: the first element satisfying [p], else
    [undefined]. *)
Fixpoint find {A} (p : A → bool) (l : list A) : JsValue A :=
  match l with
  | [] => JsUndefined
  | x :: l' => if p x then JsObject x else find p l'
  end.

(** The names of the members of [Object.prototype], which every plain
    object inherits. *)
Definition inheritedMembers : list string :=
  [ "constructor"; "__defineGetter__"; "__defineSetter__"; "hasOwnProperty";
    "__lookupGetter__"; "__lookupSetter__"; "isPrototypeOf";
    "propertyIsEnumerable"; "toString"; "valueOf"; "__proto__";
    "toLocaleString" ].

(** [obj[k]] on a plain object used as a map: the own property, else the
    inherited member of that name, else [undefined]. *)
Definition prop {A} (obj : gmap string A) (k : string) : JsValue A :=
  match obj !! k with
  | Some v => JsObject v
  | None => if bool_decide (k ∈ inheritedMembers) then JsInherited else JsUndefined
  end.

(** [v.find(p)]: only an array has the method. *)
Definition findOn {A} (v : JsValue (list A)) (p : A → bool) : Exn + JsValue A :=
  match v with
  | JsObject l => inr (find p l)
  | JsInherited => inl TypeError
  | JsNull | JsUndefined => inl TypeError
  end.

(** [l.forEach(x => body)] with the state the body updates threaded
    through. *)
Definition forEach {A S} (l : list A) (s : S) (body : S → A → S) : S :=
  foldl body s l.

(** [l.forEach(x => body)] for a body that may throw, which ends the loop. *)
Fixpoint forEachE {A S} (l : list A) (s : S) (body : S → A → Exn + S) : Exn + S :=
  match l with
  | [] => inr s
  | x :: l' =>
      match body s x with
      | inl e => inl e
      | inr s' => forEachE l' s' body
      end
  end.

(** [cloneDeep]: values of the embedding are already copies. *)
Definition cloneDeep {A} (x : A) : A := x.

(** ** Constants *)

(** Modelled from the spec: [common/constants/field_types] is not among the
    sources; the spec lists the supported primitive kinds by their
    Elasticsearch names, the constants of that file being string literals. *)
Module ES_FIELD_TYPES.
Definition DATE : string := "date".
Definition KEYWORD : string := "keyword".
Definition TEXT : string := "text".
Definition DOUBLE : string := "double".
Definition INTEGER : string := "integer".
Definition FLOAT : string := "float".
Definition LONG : string := "long".
Definition BYTE : string := "byte".
Definition HALF_FLOAT : string := "half_float".
Definition SCALED_FLOAT : string := "scaled_float".
Definition SHORT : string := "short".
End ES_FIELD_TYPES.

(** Modelled from the spec: [common/constants/aggregation_types] is not
    among the sources; the spec names the two aggregations the code
    singles out, [cardinality] and [count]. *)
Module ES_AGGREGATION.
Definition CARDINALITY : string := "cardinality".
Definition COUNT : string := "count".
End ES_AGGREGATION.

Definition supportedTypes : list string :=
  [ ES_FIELD_TYPES.DATE;
    ES_FIELD_TYPES.KEYWORD;
    ES_FIELD_TYPES.TEXT;
    ES_FIELD_TYPES.DOUBLE;
    ES_FIELD_TYPES.INTEGER;
    ES_FIELD_TYPES.FLOAT;
    ES_FIELD_TYPES.LONG;
    ES_FIELD_TYPES.BYTE;
    ES_FIELD_TYPES.HALF_FLOAT;
    ES_FIELD_TYPES.SCALED_FLOAT;
    ES_FIELD_TYPES.SHORT ].

(** [supportedTypes.includes(t)]; a missing [type] is [None]. *)
Definition includes (l : list string) (t : option string) : bool :=
  match t with
  | Some t => bool_decide (t ∈ l)
  | None => false
  end.

(** ** Data model *)

(** A field identifier is a string; a reference to an object of the store
    is its position. *)
Abbreviation FieldId := string (only parsing).
Abbreviation FieldRef := nat (only parsing).
Abbreviation AggRef := nat (only parsing).

(** [aggs] is optional in the type the code uses ([field.aggs !== undefined]). *)
Record Field := mkField {
  f_id : FieldId;
  f_name : string;
  f_type : string;
  f_aggregatable : bool;
  f_aggs : option (list AggRef)
}.

Record Aggregation := mkAggregation {
  a_id : string;
  a_dslName : string;
  a_type : string;
  a_fields : option (list FieldRef)
}.

Record Store := mkStore {
  s_fields : list Field;
  s_aggs : list Aggregation
}.

(** The value [getData] resolves to: two arrays of references into the
    store of the objects built for the request. *)
Record NewJobCaps := mkNewJobCaps {
  store : Store;
  aggs : list AggRef;
  fields : list FieldRef
}.

(** One descriptor of a [_field_caps] answer. *)
Record FieldCapability := mkFieldCapability {
  fc_type : option string;
  fc_aggregatable : bool
}.

(** [fieldCaps.fields]: field name to (type variant to descriptor). *)
Definition FieldCapsFields := list (FieldId * list (string * FieldCapability)).

Record FieldCaps := mkFieldCaps {
  fc_fields : option FieldCapsFields
}.

Record RollupAgg := mkRollupAgg { agg : string }.

(** A rollup job's [fields], as enumerated by [Object.keys]. *)
Definition RollupFieldEntries := list (string * list RollupAgg).

Record RollupJob := mkRollupJob {
  job_fields : RollupFieldEntries
}.

(** ** The collaborators *)

Inductive Call : Type → Type :=
  | GetRollupJobs (indexPattern : string) : Call (option (list RollupJob))
  | GetIndexPattern (indexPattern : string) : Call string
  | CallFieldCaps (index : string) : Call (option FieldCaps).

Inductive Event :=
  | EvRollupJobs (indexPattern : string)
  | EvIndexPattern (indexPattern : string)
  | EvFieldCaps (index : string).

Definition event_of {X} (c : Call X) : Event :=
  match c with
  | GetRollupJobs ip => EvRollupJobs ip
  | GetIndexPattern ip => EvIndexPattern ip
  | CallFieldCaps ix => EvFieldCaps ix
  end.

Record World := mkWorld {
  rollupJobs : string → Exn + option (list RollupJob);
  rollupIndexPattern : string → Exn + string;
  fieldCaps : string → Exn + option FieldCaps
}.

Definition handle (w : World) {X} (c : Call X) : Exn + X :=
  match c in Call X return Exn + X with
  | GetRollupJobs ip => rollupJobs w ip
  | GetIndexPattern ip => rollupIndexPattern w ip
  | CallFieldCaps ix => fieldCaps w ix
  end.

(** An [async] function: it returns, throws, or awaits a collaborator and
    goes on. *)
Inductive Prog (A : Type) : Type :=
  | Ret (a : A)
  | Throw (e : Exn)
  | Await {X : Type} (c : Call X) (k : X → Prog A).
Arguments Ret {A} a.
Arguments Throw {A} e.
Arguments Await {A X} c k.

Fixpoint prog_bind {A B} (k : A → Prog B) (p : Prog A) : Prog B :=
  match p with
  | Ret a => k a
  | Throw e => Throw e
  | Await c k' => Await c (λ x, prog_bind k (k' x))
  end.

(** The value a synchronous call returned, or what it threw, inside an
    [async] function. *)
Definition liftE {A} (r : Exn + A) : Prog A :=
  match r with
  | inl e => Throw e
  | inr a => Ret a
  end.

#[export] Instance Prog_ret : MRet Prog := @Ret.
#[export] Instance Prog_bind : MBind Prog := @prog_bind.

(** Running a program: the calls made, and the value it resolves to or the
    failure it rejects with. *)
Fixpoint run {A} (w : World) (p : Prog A) : list Event * (Exn + A) :=
  match p with
  | Ret a => ([], inr a)
  | Throw e => ([], inl e)
  | Await c k =>
      match handle w c with
      | inl e => ([event_of c], inl e)
      | inr x => let '(t, r) := run w (k x) in (event_of c :: t, r)
      end
  end.

(** ** Built-ins of arrays *)

(** [Array.prototype.sort(cmp)] (ECMAScript 2019: stable).  [x] is placed
    before the first element it does not compare greater than, so elements
    that compare equal keep their order. *)
Fixpoint sort_insert {A} (cmp : A → A → Z) (x : A) (l : list A) : list A :=
  match l with
  | [] => [x]
  | y :: l' => if (cmp x y <=? 0)%Z then x :: y :: l' else y :: sort_insert cmp x l'
  end.

Definition sort {A} (cmp : A → A → Z) (l : list A) : list A :=
  foldr (sort_insert cmp) [] l.

(** [l.filter(p)] on an array of objects kept in the store: the references
    (positions in [l]) of the objects satisfying [p], in array order. *)
Definition filter_refs {A} (p : A → bool) (l : list A) : list nat :=
  filter (λ i, from_option p false (l !! i)) (seq 0 (length l)).

(** The objects an array of references points to. *)
Definition deref {A} (l : list A) (refs : list nat) : list A :=
  omap (λ i, l !! i) refs.

(** ** The module *)

Section FieldService.

(** [String.prototype.localeCompare] under the server's locale. *)
Variable localeCompare : string → string → Z.

(** [METRIC_AGG_TYPE] of [common/types/fields], which is not among the
    sources: the category tag of metric aggregations. *)
Variable METRIC_AGG_TYPE : string.

Definition loadFieldCaps (indexPattern : string) : Prog (option FieldCaps) :=
  Await (CallFieldCaps indexPattern) Ret.

(** The body of the [forEach] of [createFields], for the key [k] and
    [fc = fieldCaps.fields[k]]. *)
Definition addField (fields : list Field)
    (entry : FieldId * list (string * FieldCapability)) : list Field :=
  let '(k, fc) := entry in
  match head fc with
  | Some (firstKey, field) =>
      match fc_type field with
      | Some type =>
          if includes supportedTypes (Some type) then
            fields ++ [ {| f_id := k;
                           f_name := k;
                           f_type := type;
                           f_aggregatable := fc_aggregatable field;
                           f_aggs := Some [] |} ]
          else fields
      | None => fields
      end
  | None => fields
  end.

(** The list [createFields] builds from what [loadFieldCaps] resolved to,
    before sorting. *)
Definition collectFields (fieldCaps : option FieldCaps) : list Field :=
  match fieldCaps with
  | Some {| fc_fields := Some report |} => forEach report [] addField
  | _ => []
  end.

Definition createFields (indexPattern : string) : Prog (list Field) :=
  fieldCaps ← loadFieldCaps indexPattern;
  mret (sort (λ a b, localeCompare (f_id a) (f_id b)) (collectFields fieldCaps)).

(** [field.aggs.push(agg)] when [field.aggs !== undefined] *)
Definition push_agg (a : AggRef) (field : Field) : Field :=
  match f_aggs field with
  | Some l =>
      {| f_id := f_id field; f_name := f_name field; f_type := f_type field;
         f_aggregatable := f_aggregatable field; f_aggs := Some (l ++ [a]) |}
  | None => field
  end.

(** [agg.fields.push(field)] when [agg.fields !== undefined] *)
Definition push_field (f : FieldRef) (a : Aggregation) : Aggregation :=
  match a_fields a with
  | Some l =>
      {| a_id := a_id a; a_dslName := a_dslName a; a_type := a_type a;
         a_fields := Some (l ++ [f]) |}
  | None => a
  end.

(** [rollupFields[id] && rollupFields[id].find(f => f.agg === dslName)],
    as the condition of an [if]. *)
Definition permits (rollupFields : gmap string (list RollupAgg))
    (id dslName : string) : Exn + bool :=
  if truthy (prop rollupFields id) then
    match findOn (prop rollupFields id) (λ f, bool_decide (agg f = dslName)) with
    | inl e => inl e
    | inr found => inr (truthy found)
    end
  else inr false.

(** [mix(field, agg)] on two objects of the store.  Both references come
    from the arrays of the store; a dangling one would leave it as it is. *)
Definition mixFactory (rollupFields : gmap string (list RollupAgg))
    : FieldRef → AggRef → Store → Exn + Store :=
  let isRollup := bool_decide (0 < size rollupFields) in
  λ f a s,
    match s_fields s !! f, s_aggs s !! a with
    | Some field, Some aggregation =>
        match (if negb isRollup then inr true
               else permits rollupFields (f_id field) (a_dslName aggregation)) with
        | inl e => inl e
        | inr true => inr {| s_fields := alter (push_agg a) f (s_fields s);
                             s_aggs := alter (push_field f) a (s_aggs s) |}
        | inr false => inr s
        end
    | _, _ => inr s
    end.

(** The body of the outer [forEach] of [combineAllRollupFields] for one
    key of [conf.fields]; [confAggs] is [conf.fields[fieldName]]. *)
Definition mergeField (rollupFields : gmap string (list RollupAgg))
    (entry : string * list RollupAgg) : Exn + gmap string (list RollupAgg) :=
  let '(fieldName, confAggs) := entry in
  if strict_eq_undefined (prop rollupFields fieldName) then
    inr (<[fieldName := confAggs]> rollupFields)
  else
    forEachE confAggs rollupFields (λ rollupFields a,
      match findOn (prop rollupFields fieldName)
              (λ f, bool_decide (agg f = agg a)) with
      | inl e => inl e
      | inr found =>
          if strict_eq_null found then
            match prop rollupFields fieldName with
            | JsObject current => inr (<[fieldName := current ++ [a]]> rollupFields)
            | _ => inl TypeError
            end
          else inr rollupFields
      end).

Definition combineAllRollupFields (rollupConfigs : list RollupJob)
    : Exn + gmap string (list RollupAgg) :=
  forEachE rollupConfigs ∅ (λ rollupFields conf,
    forEachE (job_fields conf) rollupFields mergeField).

Definition isTextOrKeyword (f : Field) : bool :=
  bool_decide (f_type f = ES_FIELD_TYPES.KEYWORD)
  || bool_decide (f_type f = ES_FIELD_TYPES.TEXT).

Definition isNumerical (f : Field) : bool :=
  bool_decide (f_type f = ES_FIELD_TYPES.DOUBLE)
  || bool_decide (f_type f = ES_FIELD_TYPES.FLOAT)
  || bool_decide (f_type f = ES_FIELD_TYPES.LONG).

Definition getTextAndKeywordFields (fields : list Field) : list FieldRef :=
  filter_refs isTextOrKeyword fields.

Definition getNumericalFields (fields : list Field) : list FieldRef :=
  filter_refs isNumerical fields.

(** [f.aggs && f.aggs.length] *)
Definition hasAggs (f : Field) : bool :=
  match f_aggs f with Some (_ :: _) => true | _ => false end.

(** [a.fields && a.fields.length] *)
Definition hasFields (a : Aggregation) : bool :=
  match a_fields a with Some (_ :: _) => true | _ => false end.

Definition filterFields (fields : list Field) : list FieldRef :=
  filter_refs hasAggs fields.

Definition filterAggs (aggs : list Aggregation) : list AggRef :=
  filter_refs hasFields aggs.

(** The body of [aggs.forEach] in [combineFieldsAndAggs] for the
    aggregation at [a]. *)
Definition linkAgg (mix : FieldRef → AggRef → Store → Exn + Store)
    (textAndKeywordFields numericalFields : list FieldRef)
    (s : Store) (a : AggRef) : Exn + Store :=
  match s_aggs s !! a with
  | Some aggregation =>
      if bool_decide (a_type aggregation = METRIC_AGG_TYPE) then
        if bool_decide (a_dslName aggregation = ES_AGGREGATION.CARDINALITY) then
          match forEachE textAndKeywordFields s (λ s f, mix f a s) with
          | inl e => inl e
          | inr s => forEachE numericalFields s (λ s f, mix f a s)
          end
        else if bool_decide (a_dslName aggregation = ES_AGGREGATION.COUNT) then
          inr s
        else
          forEachE numericalFields s (λ s f, mix f a s)
      else inr s
  | None => inr s
  end.

(** [combineFieldsAndAggs] is [async] and awaits nothing: it resolves to
    the value given here, or rejects with what [mix] throws. *)
Definition combineFieldsAndAggs (fields : list Field) (aggs : list Aggregation)
    (rollupFields : gmap string (list RollupAgg)) : Exn + NewJobCaps :=
  let textAndKeywordFields := getTextAndKeywordFields fields in
  let numericalFields := getNumericalFields fields in
  let mix := mixFactory rollupFields in
  match forEachE (seq 0 (length aggs)) {| s_fields := fields; s_aggs := aggs |}
          (linkAgg mix textAndKeywordFields numericalFields) with
  | inl e => inl e
  | inr s => inr {| store := s;
                    aggs := filterAggs (s_aggs s);
                    fields := filterFields (s_fields s) |}
  end.

(** [getData] of a [FieldsService] made for [indexPattern] and [isRollup];
    [aggregations] is the catalog of [./aggregations], which is not among
    the sources. *)
Definition getData (indexPattern : string) (isRollup : bool)
    (aggregations : list Aggregation) : Prog NewJobCaps :=
  let finish (indexPattern : string) (rollupFields : gmap string (list RollupAgg)) :=
    let aggs := cloneDeep aggregations in
    fields ← createFields indexPattern;
    liftE (combineFieldsAndAggs fields aggs rollupFields) in
  if isRollup then
    rollupConfigs ← Await (GetRollupJobs indexPattern) Ret;
    match rollupConfigs with
    | None => mret {| store := {| s_fields := []; s_aggs := [] |};
                      aggs := [];
                      fields := [] |}
    | Some rollupConfigs =>
        rollupFields ← liftE (combineAllRollupFields rollupConfigs);
        indexPattern ← Await (GetIndexPattern indexPattern) Ret;
        finish indexPattern rollupFields
    end
  else finish indexPattern ∅.

End FieldService.

(** ** Reading a result *)

(** The returned fields, as objects. *)
Definition returnedFields (r : NewJobCaps) : list Field :=
  deref (s_fields (store r)) (fields r).

(** The returned aggregations, as objects. *)
Definition returnedAggs (r : NewJobCaps) : list Aggregation :=
  deref (s_aggs (store r)) (aggs r).

(** The aggregations in the list of [f], as objects. *)
Definition aggsOf (r : NewJobCaps) (f : Field) : list Aggregation :=
  deref (s_aggs (store r)) (default [] (f_aggs f)).

(** The fields in the list of [a], as objects. *)
Definition fieldsOf (r : NewJobCaps) (a : Aggregation) : list Field :=
  deref (s_fields (store r)) (default [] (a_fields a)).

(** Each returned field with the DSL names of its aggregations, in order. *)
Definition fieldsView (r : NewJobCaps) : list (FieldId * list string) :=
  (λ f, (f_id f, a_dslName <$> aggsOf r f)) <$> returnedFields r.

(** Each returned aggregation with the identifiers of its fields, in order. *)
Definition aggsView (r : NewJobCaps) : list (string * list FieldId) :=
  (λ a, (a_dslName a, f_id <$> fieldsOf r a)) <$> returnedAggs r.

(** A field/aggregation pair is linked in a result when the aggregation is
    in the list of a returned field, or the field is in the list of a
    returned aggregation. *)
Definition linkedIn (r : NewJobCaps) (f : Field) (a : Aggregation) : Prop :=
  (f ∈ returnedFields r ∧ a ∈ aggsOf r f)
  ∨ (a ∈ returnedAggs r ∧ f ∈ fieldsOf r a).

(** An aggregation of the catalog whose field list has not been filled:
    empty, or absent. *)
Definition unlinked (a : Aggregation) : Prop :=
  a_fields a = Some [] ∨ a_fields a = None.

(** ** Sample inputs *)

Module Sample.

(** Comparison by code units, a comparator in the way [localeCompare]
    is one. *)
Definition codeUnitCompare (a b : string) : Z :=
  if String.leb a b then (if String.leb b a then 0 else -1)%Z else 1%Z.

Definition METRIC : string := "metrics".

Definition avg : Aggregation :=
  {| a_id := "mean"; a_dslName := "avg"; a_type := METRIC; a_fields := Some [] |}.
Definition cardinality : Aggregation :=
  {| a_id := "distinct_count"; a_dslName := "cardinality"; a_type := METRIC;
     a_fields := Some [] |}.
Definition count : Aggregation :=
  {| a_id := "count"; a_dslName := "count"; a_type := METRIC; a_fields := Some [] |}.

Definition catalog : list Aggregation := [avg; cardinality; count].

(** [{ age: { long: {type: 'long', aggregatable: true} },
       name: { keyword: {type: 'keyword', aggregatable: true} } }] *)
Definition report : FieldCapsFields :=
  [ ("age", [("long", {| fc_type := Some "long"; fc_aggregatable := true |})]);
    ("name", [("keyword", {| fc_type := Some "keyword"; fc_aggregatable := true |})]) ].

(** The same report with [age] not aggregatable. *)
Definition reportNotAggregatable : FieldCapsFields :=
  [ ("age", [("long", {| fc_type := Some "long"; fc_aggregatable := false |})]);
    ("name", [("keyword", {| fc_type := Some "keyword"; fc_aggregatable := true |})]) ].

(** A report with a field without variants, one of an unsupported type
    and one without a type. *)
Definition reportMixed : FieldCapsFields :=
  [ ("name", [("keyword", {| fc_type := Some "keyword"; fc_aggregatable := true |})]);
    ("empty", []);
    ("location", [("geo_point", {| fc_type := Some "geo_point"; fc_aggregatable := true |})]);
    ("odd", [("unknown", {| fc_type := None; fc_aggregatable := false |})]);
    ("age", [("long", {| fc_type := Some "long"; fc_aggregatable := false |});
             ("keyword", {| fc_type := Some "keyword"; fc_aggregatable := true |})]) ].

(** A world where the rollup lookup answers [jobs] and [_field_caps]
    answers [rep] for every index. *)
Definition world (jobs : option (list RollupJob)) (rep : FieldCapsFields) : World :=
  {| rollupJobs := λ _, inr jobs;
     rollupIndexPattern := λ _, inr "rollup-backing-*";
     fieldCaps := λ _, inr (Some {| fc_fields := Some rep |}) |}.

(** [{ age: [{agg: 'avg'}] }] *)
Definition jobAvg : RollupJob :=
  {| job_fields := [("age", [ {| agg := "avg" |} ])] |}.

(** [{ age: [{agg: 'max'}] }] *)
Definition jobMax : RollupJob :=
  {| job_fields := [("age", [ {| agg := "max" |} ])] |}.

(** A job that rolls up no field. *)
Definition jobEmpty : RollupJob := {| job_fields := [] |}.

(** [{ age: [{agg: 'avg'}], bytes: [{agg: 'max'}] }] *)
Definition jobTwoFields : RollupJob :=
  {| job_fields := [("age", [ {| agg := "avg" |} ]);
                    ("bytes", [ {| agg := "max" |} ])] |}.

(** A report whose fields are supported and of types that are not linked. *)
Definition reportUnlinkable : FieldCapsFields :=
  [ ("when", [("date", {| fc_type := Some "date"; fc_aggregatable := true |})]);
    ("count", [("integer", {| fc_type := Some "integer"; fc_aggregatable := true |})]) ].

(** A job that lists the name of an inherited member with nothing to
    roll up, and one that lists an aggregation under such a name. *)
Definition jobInheritedEmpty : RollupJob :=
  {| job_fields := [("constructor", [])] |}.

Definition jobInherited : RollupJob :=
  {| job_fields := [("constructor", [ {| agg := "max" |} ]);
                    ("age", [ {| agg := "avg" |} ])] |}.

(** A report with a numeric field named as an inherited member. *)
Definition reportInherited : FieldCapsFields :=
  [ ("age", [("long", {| fc_type := Some "long"; fc_aggregatable := true |})]);
    ("constructor", [("long", {| fc_type := Some "long"; fc_aggregatable := true |})]) ].

End Sample.

(** ** Vocabulary of the properties *)

(** What never changes in an object once it is built. *)
Definition field_meta (f : Field) : string * string * string * bool :=
  (f_id f, f_name f, f_type f, f_aggregatable f).

Definition agg_meta (a : Aggregation) : string * string * string :=
  (a_id a, a_dslName a, a_type a).

(** A link list only grows at its end, and is never created or dropped. *)
Definition grows {A} (o o' : option (list A)) : Prop :=
  match o, o' with
  | Some l, Some l' => l `prefix_of` l'
  | None, None => True
  | _, _ => False
  end.

Definition field_extends (f f' : Field) : Prop :=
  field_meta f = field_meta f' ∧ grows (f_aggs f) (f_aggs f').

Definition agg_extends (a a' : Aggregation) : Prop :=
  agg_meta a = agg_meta a' ∧ grows (a_fields a) (a_fields a').

Definition store_extends (s s' : Store) : Prop :=
  Forall2 field_extends (s_fields s) (s_fields s')
  ∧ Forall2 agg_extends (s_aggs s) (s_aggs s').

(** Every link recorded in the store, in either direction, satisfies [P]. *)
Definition links_sat (P : FieldRef → AggRef → Prop) (s : Store) : Prop :=
  (∀ i f l j, s_fields s !! i = Some f → f_aggs f = Some l → j ∈ l → P i j)
  ∧ (∀ j a l i, s_aggs s !! j = Some a → a_fields a = Some l → i ∈ l → P i j).

(** The rollup map lists [dslName] for [id]: what [permits] answers when
    it does not throw. *)
Definition listed (rollupFields : gmap string (list RollupAgg))
    (id dslName : string) : bool :=
  match rollupFields !! id with
  | Some entries => truthy (find (λ f, bool_decide (agg f = dslName)) entries)
  | None => false
  end.

(** The store that [mix] returns, when it returns. *)
Definition mix_result (rollupFields : gmap string (list RollupAgg))
    (f a : nat) (s : Store) : Store :=
  match s_fields s !! f, s_aggs s !! a with
  | Some field, Some aggregation =>
      if negb (bool_decide (0 < size rollupFields))
         || listed rollupFields (f_id field) (a_dslName aggregation)
      then {| s_fields := alter (push_agg a) f (s_fields s);
              s_aggs := alter (push_field f) a (s_aggs s) |}
      else s
  | _, _ => s
  end.

(** The store after the body of [aggs.forEach] for the aggregation at
    [a], when nothing throws. *)
Definition linkAgg_result (METRIC_AGG_TYPE : string)
    (mix : nat → nat → Store → Store)
    (textAndKeywordFields numericalFields : list nat)
    (s : Store) (a : nat) : Store :=
  match s_aggs s !! a with
  | Some aggregation =>
      if bool_decide (a_type aggregation = METRIC_AGG_TYPE) then
        if bool_decide (a_dslName aggregation = ES_AGGREGATION.CARDINALITY) then
          let s := forEach textAndKeywordFields s (λ s f, mix f a s) in
          forEach numericalFields s (λ s f, mix f a s)
        else if bool_decide (a_dslName aggregation = ES_AGGREGATION.COUNT) then
          s
        else
          forEach numericalFields s (λ s f, mix f a s)
      else s
  | None => s
  end.

(** What [combineFieldsAndAggs] resolves to, when it resolves. *)
Definition combine_result (METRIC_AGG_TYPE : string)
    (fields : list Field) (aggs : list Aggregation)
    (rollupFields : gmap string (list RollupAgg)) : NewJobCaps :=
  let s := forEach (seq 0 (length aggs)) {| s_fields := fields; s_aggs := aggs |}
             (linkAgg_result METRIC_AGG_TYPE (mix_result rollupFields)
                (getTextAndKeywordFields fields) (getNumericalFields fields)) in
  {| store := s;
     aggs := filterAggs (s_aggs s);
     fields := filterFields (s_fields s) |}.

(** An entry of a job that makes the merge throw: the name of an inherited
    member, with an aggregation to look for. *)
Definition throwingEntry (e : string * list RollupAgg) : bool :=
  bool_decide (e.1 ∈ inheritedMembers) && match e.2 with [] => false | _ => true end.

Definition mergeThrows (rollupConfigs : list RollupJob) : bool :=
  existsb (λ conf, existsb throwingEntry (job_fields conf)) rollupConfigs.

(** The map a merge returned; the empty map stands in when it threw. *)
Definition mergedOf (r : Exn + gmap string (list RollupAgg))
    : gmap string (list RollupAgg) :=
  match r with
  | inr m => m
  | inl _ => ∅
  end.

(** No own property has the name of an inherited member. *)
Definition ownNamesOnly (m : gmap string (list RollupAgg)) : Prop :=
  ∀ k, k ∈ inheritedMembers → m !! k = None.

(** Applying [g] to what was returned. *)
Definition mapE {A B} (g : A → B) (r : Exn + A) : Exn + B :=
  match r with
  | inl e => inl e
  | inr a => inr (g a)
  end.

(** [id] is no key of the rollup map, yet the name of a member the map
    inherits. *)
Definition inheritedOnly (rollupFields : gmap string (list RollupAgg))
    (id : string) : bool :=
  bool_decide (id ∈ inheritedMembers)
  && match rollupFields !! id with None => true | Some _ => false end.

(** The type rules of [combineFieldsAndAggs] for linking [f] and [a]. *)
Definition typeRule (METRIC_AGG_TYPE : string) (f : Field) (a : Aggregation) : Prop :=
  a_type a = METRIC_AGG_TYPE
  ∧ a_dslName a ≠ ES_AGGREGATION.COUNT
  ∧ (isNumerical f ∨ (a_dslName a = ES_AGGREGATION.CARDINALITY ∧ isTextOrKeyword f)).

(** The condition under which [mix] links [f] and [a]. *)
Definition gateOpen (rollupFields : gmap string (list RollupAgg))
    (f : Field) (a : Aggregation) : Prop :=
  size rollupFields = 0 ∨ listed rollupFields (f_id f) (a_dslName a).

(** The condition under which the cross-referencing throws: the rollup
    map is not empty, and [mix] is called on a field whose id the map only
    inherits. *)
Definition crossThrows (METRIC_AGG_TYPE : string)
    (rollupFields : gmap string (list RollupAgg))
    (fields0 : list Field) (aggs0 : list Aggregation) : Prop :=
  0 < size rollupFields
  ∧ ∃ i j f a, fields0 !! i = Some f ∧ aggs0 !! j = Some a
               ∧ typeRule METRIC_AGG_TYPE f a
               ∧ inheritedOnly rollupFields (f_id f).

(** Both objects hold the link, as far as they hold a list. *)
Definition linked (s : Store) (i : FieldRef) (j : AggRef) : Prop :=
  (∀ f l, s_fields s !! i = Some f → f_aggs f = Some l → j ∈ l)
  ∧ (∀ a l, s_aggs s !! j = Some a → a_fields a = Some l → i ∈ l).

(** The links the code may record, between the objects it starts from. *)
Definition mayLink (METRIC_AGG_TYPE : string)
    (rollupFields : gmap string (list RollupAgg))
    (fields0 : list Field) (aggs0 : list Aggregation)
    (i : FieldRef) (j : AggRef) : Prop :=
  ∃ f a, fields0 !! i = Some f ∧ aggs0 !! j = Some a
         ∧ typeRule METRIC_AGG_TYPE f a ∧ gateOpen rollupFields f a.

(** The store when [aggs.forEach] of [combineFieldsAndAggs] is done. *)
Definition linkedStore (METRIC_AGG_TYPE : string)
    (rollupFields : gmap string (list RollupAgg))
    (fields0 : list Field) (aggs0 : list Aggregation) : Store :=
  store (combine_result METRIC_AGG_TYPE fields0 aggs0 rollupFields).

(** The fields [createFields] resolves to when [loadFieldCaps] resolved
    to [o]. *)
Definition fieldsCreated (localeCompare : string → string → Z)
    (o : option FieldCaps) : list Field :=
  sort (λ a b, localeCompare (f_id a) (f_id b)) (collectFields o).

(** The result of the path of [getData] that returns early. *)
Definition emptyResult : NewJobCaps :=
  {| store := {| s_fields := []; s_aggs := [] |}; aggs := []; fields := [] |}.

(** A field whose list of aggregations is there and empty, as
    [createFields] builds them. *)
Definition fresh (f : Field) : Prop := f_aggs f = Some [].

(** What a run resolved to; the empty result stands in when it rejected. *)
Definition resolved (o : list Event * (Exn + NewJobCaps)) : NewJobCaps :=
  match o.2 with
  | inr r => r
  | inl _ => emptyResult
  end.

(** A comparator that orders: any two strings compare one way or the
    other, and transitively. *)
Definition comparator_total (cmp : string → string → Z) : Prop :=
  ∀ a b, (cmp a b ≤ 0 ∨ cmp b a ≤ 0)%Z.

Definition comparator_trans (cmp : string → string → Z) : Prop :=
  ∀ a b c, (cmp a b ≤ 0 → cmp b c ≤ 0 → cmp a c ≤ 0)%Z.

(** Forgetting the [aggregatable] flags: of a descriptor, a report, an
    answer of [_field_caps], a field, a result. *)
Definition eraseCapability (d : FieldCapability) : FieldCapability :=
  {| fc_type := fc_type d; fc_aggregatable := false |}.

Definition eraseEntry (e : FieldId * list (string * FieldCapability))
    : FieldId * list (string * FieldCapability) :=
  (e.1, (λ v : string * FieldCapability, (v.1, eraseCapability v.2)) <$> e.2).

Definition eraseReport (report : FieldCapsFields) : FieldCapsFields :=
  eraseEntry <$> (report : list (FieldId * list (string * FieldCapability))).

Definition eraseFieldCaps (o : option FieldCaps) : option FieldCaps :=
  (λ fc, {| fc_fields := eraseReport <$> fc_fields fc |}) <$> o.

Definition eraseAnswer (r : Exn + option FieldCaps) : Exn + option FieldCaps :=
  match r with
  | inl e => inl e
  | inr o => inr (eraseFieldCaps o)
  end.

Definition eraseField (f : Field) : Field :=
  {| f_id := f_id f; f_name := f_name f; f_type := f_type f;
     f_aggregatable := false; f_aggs := f_aggs f |}.

Definition eraseStore (s : Store) : Store :=
  {| s_fields := eraseField <$> s_fields s; s_aggs := s_aggs s |}.

Definition eraseResult (r : NewJobCaps) : NewJobCaps :=
  {| store := eraseStore (store r); aggs := aggs r; fields := fields r |}.

Definition eraseOutcome (o : list Event * (Exn + NewJobCaps))
    : list Event * (Exn + NewJobCaps) :=
  (o.1, match o.2 with inl e => inl e | inr r => inr (eraseResult r) end).

(** [obj[k]] on an object given by its entries. *)
Fixpoint entryOf {A} (k : string) (entries : list (string * A)) : option A :=
  match entries with
  | [] => None
  | (k', v) :: rest => if decide (k' = k) then Some v else entryOf k rest
  end.

(** The entry of the first job of [rollupConfigs] that lists [k]. *)
Fixpoint firstEntry (k : string) (rollupConfigs : list RollupJob)
    : option (list RollupAgg) :=
  match rollupConfigs with
  | [] => None
  | conf :: rest =>
      match entryOf k (job_fields conf) with
      | Some v => Some v
      | None => firstEntry k rest
      end
  end.

(** [Object.keys(conf.fields)] *)
Definition jobKeys (conf : RollupJob) : list string :=
  (job_fields conf : list (string * list RollupAgg)).*1.

(** While the aggregation at position [n] is being linked: the list of
    every field is strictly increasing and has positions up to [n] only,
    and the fields still to be visited ([pending]) have none at [n] yet. *)
Definition aggsPending (n : nat) (pending : list nat) (s : Store) : Prop :=
  ∀ i f l, s_fields s !! i = Some f → f_aggs f = Some l →
    StronglySorted lt l
    ∧ Forall (λ j, j < S n) l
    ∧ (i ∈ pending → Forall (λ j, j < n) l).

(** While the aggregation at position [n] is being linked: every field
    list is without repeats, those of the later aggregations are still
    empty, and the one at [n] has none of the fields still to be visited. *)
Definition fieldsPending (n : nat) (pending : list nat) (s : Store) : Prop :=
  ∀ j a l, s_aggs s !! j = Some a → a_fields a = Some l →
    NoDup l
    ∧ (n < j → l = [])
    ∧ (j = n → ∀ x, x ∈ l → x ∉ pending).

(** Before the aggregation at position [n] is linked: the list of every
    field is strictly increasing and has positions below [n] only. *)
Definition aggsBelow (n : nat) (s : Store) : Prop :=
  ∀ i f l, s_fields s !! i = Some f → f_aggs f = Some l →
    StronglySorted lt l ∧ Forall (λ j, j < n) l.

(** Before the aggregation at position [n] is linked: every field list is
    without repeats, and those from position [n] on are still empty. *)
Definition fieldsDone (n : nat) (s : Store) : Prop :=
  ∀ j a l, s_aggs s !! j = Some a → a_fields a = Some l →
    NoDup l ∧ ((n ≤ j)%nat → l = []).

(** The types of the fields that [combineFieldsAndAggs] links. *)
Definition linkableTypes : list string :=
  [ ES_FIELD_TYPES.KEYWORD; ES_FIELD_TYPES.TEXT;
    ES_FIELD_TYPES.DOUBLE; ES_FIELD_TYPES.FLOAT; ES_FIELD_TYPES.LONG ].

(** * Properties *)

(** ** Built-ins *)

Lemma find_not_null {A} (p : A → bool) (l : list A) :
  strict_eq_null (find p l) = false.
Proof.
  induction l as [|x l IH]; simpl; [done|]. by destruct (p x).
Qed.

Lemma find_truthy {A} (p : A → bool) (l : list A) :
  truthy (find p l) ↔ ∃ x, x ∈ l ∧ p x.
Proof.
  induction l as [|x l IH]; simpl.
  - split; [done|]. intros (x & Hx & _). by apply elem_of_nil in Hx.
  - destruct (p x) eqn:Hp; simpl.
    + split; [|done]. intros _. exists x. split; [left|by rewrite Hp].
    + rewrite IH. split.
      * intros (y & Hy & Hpy). exists y. split; [by right|done].
      * intros (y & Hy & Hpy). apply elem_of_cons in Hy as [->|Hy].
        -- by rewrite Hp in Hpy.
        -- by exists y.
Qed.

Lemma forEach_nil {A S} (s : S) (body : S → A → S) : forEach [] s body = s.
Proof. reflexivity. Qed.

Lemma forEach_cons {A S} (x : A) (l : list A) (s : S) body :
  forEach (x :: l) s body = forEach l (body s x) body.
Proof. reflexivity. Qed.

Lemma forEach_app {A S} (l1 l2 : list A) (s : S) body :
  forEach (l1 ++ l2) s body = forEach l2 (forEach l1 s body) body.
Proof. apply foldl_app. Qed.

(** An invariant of the body at the elements of the list is one of the loop. *)
Lemma forEach_invariant {A S} (I : S → Prop) (l : list A) (s : S) body :
  I s → (∀ s x, x ∈ l → I s → I (body s x)) → I (forEach l s body).
Proof.
  revert s. induction l as [|x l IH]; intros s Hs Hbody; simpl; [done|].
  apply IH.
  - apply Hbody; [left|done].
  - intros s' y Hy. apply Hbody. by right.
Qed.

Lemma sort_insert_perm {A} (cmp : A → A → Z) x l :
  sort_insert cmp x l ≡ₚ x :: l.
Proof.
  induction l as [|y l IH]; simpl; [done|].
  destruct (cmp x y <=? 0)%Z; [done|].
  rewrite IH. apply Permutation_swap.
Qed.

Lemma sort_perm {A} (cmp : A → A → Z) l : sort cmp l ≡ₚ l.
Proof.
  induction l as [|x l IH]; simpl; [done|].
  by rewrite sort_insert_perm, IH.
Qed.

Lemma sort_elem_of {A} (cmp : A → A → Z) l x : x ∈ sort cmp l ↔ x ∈ l.
Proof. by rewrite sort_perm. Qed.

Lemma sort_insert_sorted {A} (cmp : A → A → Z) x l :
  (∀ a b, (cmp a b ≤ 0 ∨ cmp b a ≤ 0)%Z) →
  (∀ a b c, (cmp a b ≤ 0 → cmp b c ≤ 0 → cmp a c ≤ 0)%Z) →
  StronglySorted (λ a b, (cmp a b ≤ 0)%Z) l →
  StronglySorted (λ a b, (cmp a b ≤ 0)%Z) (sort_insert cmp x l).
Proof.
  intros Htot Htrans. induction l as [|y l IH]; intros Hl; simpl.
  - repeat constructor.
  - apply StronglySorted_inv in Hl as [Hl Hy].
    destruct (Z.leb_spec (cmp x y) 0) as [Hle|Hgt].
    + constructor; [by constructor|].
      constructor; [done|].
      eapply Forall_impl; [exact Hy|]. intros z Hz. by eapply Htrans.
    + constructor; [by apply IH|].
      rewrite sort_insert_perm. constructor; [|done].
      destruct (Htot x y); [lia|done].
Qed.

Lemma sort_sorted {A} (cmp : A → A → Z) l :
  (∀ a b, (cmp a b ≤ 0 ∨ cmp b a ≤ 0)%Z) →
  (∀ a b c, (cmp a b ≤ 0 → cmp b c ≤ 0 → cmp a c ≤ 0)%Z) →
  StronglySorted (λ a b, (cmp a b ≤ 0)%Z) (sort cmp l).
Proof.
  intros Htot Htrans. induction l as [|x l IH]; simpl.
  - constructor.
  - by apply sort_insert_sorted.
Qed.

(** Sorting commutes with a map that the comparator does not see. *)
Lemma sort_fmap {A} (cmp : A → A → Z) (g : A → A) l :
  (∀ x y, cmp (g x) (g y) = cmp x y) →
  sort cmp (g <$> l) = g <$> sort cmp l.
Proof.
  intros Hg. unfold sort. induction l as [|x l IH]; csimpl; [done|].
  rewrite IH. generalize (foldr (sort_insert cmp) [] l) as k. clear IH.
  induction k as [|y k IHk]; csimpl; [done|].
  rewrite Hg. destruct (cmp x y <=? 0)%Z; csimpl; [done|]. by rewrite IHk.
Qed.

Lemma StronglySorted_sublist {A} (R : relation A) (l k : list A) :
  l `sublist_of` k → StronglySorted R k → StronglySorted R l.
Proof.
  induction 1 as [|x l k Hsub IH|x l k Hsub IH]; intros Hk.
  - constructor.
  - apply StronglySorted_inv in Hk as [Hk Hx]. constructor; [by apply IH|].
    apply Forall_forall. intros y Hy.
    eapply Forall_forall in Hx; [exact Hx|]. by eapply elem_of_sublist.
  - apply StronglySorted_inv in Hk as [Hk _]. by apply IH.
Qed.

Lemma omap_fmap_compose {A B C} (f : B → option C) (g : A → B) (l : list A) :
  omap f (g <$> l) = omap (λ x, f (g x)) l.
Proof.
  induction l as [|x l IH]; csimpl; [done|]. by rewrite IH.
Qed.

Lemma deref_seq {A} (l : list A) : deref l (seq 0 (length l)) = l.
Proof.
  unfold deref. induction l as [|x l IH]; [done|].
  cbn [length seq]. csimpl. f_equal.
  rewrite <- fmap_S_seq, omap_fmap_compose. exact IH.
Qed.

(** Filtering the references of an array and reading them back
    is filtering the array. *)
Lemma omap_filter {A} (f : nat → option A) (Q : nat → Prop) (P : A → Prop)
    `{!∀ i, Decision (Q i)} `{!∀ x, Decision (P x)} (refs : list nat) :
  (∀ i x, f i = Some x → Q i ↔ P x) →
  (∀ i, f i = None → ¬ Q i) →
  omap f (filter Q refs) = filter P (omap f refs).
Proof.
  intros HQP HQN. induction refs as [|i refs IH]; [done|].
  destruct (f i) as [x|] eqn:Hfi.
  - destruct (decide (Q i)) as [Hq|Hq].
    + rewrite filter_cons_True by done. csimpl. rewrite Hfi.
      rewrite filter_cons_True by (by apply (HQP i x)). by f_equal.
    + rewrite filter_cons_False by done. csimpl. rewrite Hfi.
      rewrite filter_cons_False; [done|].
      intros Hp. apply Hq. by apply (HQP i x).
  - rewrite filter_cons_False by (by apply HQN). csimpl. by rewrite Hfi.
Qed.

Lemma deref_filter_refs {A} (p : A → bool) (l : list A) :
  deref l (filter_refs p l) = filter (λ x, p x) l.
Proof.
  unfold filter_refs, deref.
  rewrite (omap_filter _ _ (λ x, p x)).
  - fold (deref l (seq 0 (length l))). by rewrite deref_seq.
  - intros i x Hi. by rewrite Hi.
  - intros i Hi. rewrite Hi. simpl. tauto.
Qed.

Lemma elem_of_filter_refs {A} (p : A → bool) (l : list A) i :
  i ∈ filter_refs p l ↔ ∃ x, l !! i = Some x ∧ p x.
Proof.
  unfold filter_refs. rewrite list_elem_of_filter, elem_of_seq. split.
  - intros [Hp _]. destruct (l !! i) as [x|]; [by exists x|done].
  - intros (x & Hx & Hp). rewrite Hx. split; [done|].
    apply lookup_lt_Some in Hx. lia.
Qed.

(** A step of a loop that moves the state up a preorder establishes, once
    and for all, what is stable along the preorder. *)
Lemma forEach_establishes {A S} (R : relation S) (I Q : S → Prop)
    (l : list A) (s : S) body x0 :
  x0 ∈ l →
  I s →
  (∀ s x, I s → I (body s x)) →
  (∀ s, I s → Q (body s x0)) →
  (∀ s s', Q s → R s s' → Q s') →
  (∀ s x, R s (body s x)) →
  Q (forEach l s body).
Proof.
  intros Hx0 Hs HI Hx HQ HR.
  apply list_elem_of_split in Hx0 as (l1 & l2 & ->).
  rewrite forEach_app. simpl.
  apply forEach_invariant.
  - apply Hx. apply forEach_invariant; [done|]. intros; by apply HI.
  - intros s' y _ Hq. by eapply HQ.
Qed.

(** ** Objects and their link lists *)

Lemma grows_refl {A} (o : option (list A)) : grows o o.
Proof. destruct o; simpl; [reflexivity|done]. Qed.

Lemma grows_trans {A} (o1 o2 o3 : option (list A)) :
  grows o1 o2 → grows o2 o3 → grows o1 o3.
Proof.
  destruct o1, o2, o3; simpl; try done. intros. by etrans.
Qed.

Lemma grows_elem_of {A} (o o' : option (list A)) l' x :
  grows o o' → o' = Some l' → (∀ l, o = Some l → x ∈ l) → x ∈ l'.
Proof.
  intros Hg -> Hx. destruct o as [l|]; [|done].
  simpl in Hg. destruct Hg as [k ->]. apply elem_of_app. left. by apply Hx.
Qed.

#[export] Instance field_extends_preorder : PreOrder field_extends.
Proof.
  split.
  - intros f. split; [done|apply grows_refl].
  - intros f1 f2 f3 [? ?] [? ?]. split; [congruence|by eapply grows_trans].
Qed.

#[export] Instance agg_extends_preorder : PreOrder agg_extends.
Proof.
  split.
  - intros a. split; [done|apply grows_refl].
  - intros a1 a2 a3 [? ?] [? ?]. split; [congruence|by eapply grows_trans].
Qed.

#[export] Instance store_extends_preorder : PreOrder store_extends.
Proof.
  split.
  - intros s. split; reflexivity.
  - intros s1 s2 s3 [? ?] [? ?]. split; by etrans.
Qed.

Lemma push_agg_extends a f : field_extends f (push_agg a f).
Proof.
  unfold push_agg, field_extends. destruct (f_aggs f) as [l|] eqn:Hl; simpl.
  - split; [done|]. by apply prefix_app_r.
  - split; [done|]. by rewrite Hl.
Qed.

Lemma push_field_extends f a : agg_extends a (push_field f a).
Proof.
  unfold push_field, agg_extends. destruct (a_fields a) as [l|] eqn:Hl; simpl.
  - split; [done|]. by apply prefix_app_r.
  - split; [done|]. by rewrite Hl.
Qed.

Lemma store_extends_ids s s' :
  store_extends s s' → f_id <$> s_fields s = f_id <$> s_fields s'.
Proof.
  intros [Hf _]. induction Hf as [|f f' l l' [Hm _] _ IH]; [done|].
  csimpl. rewrite IH. by injection Hm as -> _ _ _.
Qed.

Lemma store_extends_field s s' i f' :
  store_extends s s' → s_fields s' !! i = Some f' →
  ∃ f, s_fields s !! i = Some f ∧ field_extends f f'.
Proof. intros [Hf _] Hi. by eapply Forall2_lookup_r. Qed.

Lemma store_extends_agg s s' j a' :
  store_extends s s' → s_aggs s' !! j = Some a' →
  ∃ a, s_aggs s !! j = Some a ∧ agg_extends a a'.
Proof. intros [_ Ha] Hj. by eapply Forall2_lookup_r. Qed.

Lemma store_extends_field_l s s' i f :
  store_extends s s' → s_fields s !! i = Some f →
  ∃ f', s_fields s' !! i = Some f' ∧ field_extends f f'.
Proof. intros [Hf _] Hi. by eapply Forall2_lookup_l. Qed.

Lemma store_extends_agg_l s s' j a :
  store_extends s s' → s_aggs s !! j = Some a →
  ∃ a', s_aggs s' !! j = Some a' ∧ agg_extends a a'.
Proof. intros [_ Ha] Hj. by eapply Forall2_lookup_l. Qed.

(** ** Cross-referencing *)

Section Linking.

Variable METRIC_AGG_TYPE : string.
Variable rollupFields : gmap string (list RollupAgg).

Lemma gate_spec (f : Field) (a : Aggregation) :
  negb (bool_decide (0 < size rollupFields))
  || listed rollupFields (f_id f) (a_dslName a) = true
  ↔ gateOpen rollupFields f a.
Proof.
  unfold gateOpen. rewrite orb_true_iff, negb_true_iff, bool_decide_eq_false.
  rewrite Is_true_true. split; (intros [?|?]; [left; lia|by right]).
Qed.

Lemma gateOpen_meta f f' a a' :
  field_meta f = field_meta f' → agg_meta a = agg_meta a' →
  gateOpen rollupFields f a → gateOpen rollupFields f' a'.
Proof.
  unfold field_meta, agg_meta, gateOpen. intros Hf Ha.
  injection Hf as <- _ _ _. injection Ha as _ <- _. done.
Qed.

Lemma typeRule_meta f f' a a' :
  field_meta f = field_meta f' → agg_meta a = agg_meta a' →
  typeRule METRIC_AGG_TYPE f a → typeRule METRIC_AGG_TYPE f' a'.
Proof.
  unfold field_meta, agg_meta, typeRule, isNumerical, isTextOrKeyword.
  intros Hf Ha. injection Hf as _ _ <- _. injection Ha as _ <- <-. done.
Qed.

Lemma mix_extends f a s : store_extends s (mix_result rollupFields f a s).
Proof.
  unfold mix_result.
  destruct (s_fields s !! f) as [field|]; [|reflexivity].
  destruct (s_aggs s !! a) as [aggregation|]; [|reflexivity].
  destruct (_ || _); [|reflexivity].
  split; simpl.
  - apply Forall2_alter_r; [reflexivity|].
    intros x y _ _ Hxy. etrans; [exact Hxy|apply push_agg_extends].
  - apply Forall2_alter_r; [reflexivity|].
    intros x y _ _ Hxy. etrans; [exact Hxy|apply push_field_extends].
Qed.

(** [mix] records only links whose gate is open. *)
Lemma mix_links_sat (P : FieldRef → AggRef → Prop) f a s :
  links_sat P s →
  (∀ field aggregation,
     s_fields s !! f = Some field → s_aggs s !! a = Some aggregation →
     gateOpen rollupFields field aggregation → P f a) →
  links_sat P (mix_result rollupFields f a s).
Proof.
  intros [HF HA] Hgate. unfold mix_result.
  destruct (s_fields s !! f) as [field|] eqn:Hf; [|by split].
  destruct (s_aggs s !! a) as [aggregation|] eqn:Ha; [|by split].
  destruct (_ || _) eqn:Hg; [|by split].
  apply gate_spec in Hg. specialize (Hgate _ _ eq_refl eq_refl Hg).
  split; simpl.
  - intros i f' l j Hi Hl Hj.
    destruct (decide (f = i)) as [<-|Hne];
      [rewrite list_lookup_alter_eq in Hi
      |rewrite list_lookup_alter_ne in Hi by done; by eapply HF].
    rewrite Hf in Hi. injection Hi as <-. unfold push_agg in Hl.
    destruct (f_aggs field) as [l0|] eqn:Hl0; simpl in Hl; [|congruence].
    injection Hl as <-. apply elem_of_app in Hj as [Hj|Hj].
    + by eapply HF.
    + apply list_elem_of_singleton in Hj as ->. exact Hgate.
  - intros j a' l i Hj Hl Hi.
    destruct (decide (a = j)) as [<-|Hne];
      [rewrite list_lookup_alter_eq in Hj
      |rewrite list_lookup_alter_ne in Hj by done; by eapply HA].
    rewrite Ha in Hj. injection Hj as <-. unfold push_field in Hl.
    destruct (a_fields aggregation) as [l0|] eqn:Hl0; simpl in Hl; [|congruence].
    injection Hl as <-. apply elem_of_app in Hi as [Hi|Hi].
    + by eapply HA.
    + apply list_elem_of_singleton in Hi as ->. exact Hgate.
Qed.

Lemma linked_extends s s' i j :
  linked s i j → store_extends s s' → linked s' i j.
Proof.
  intros [HF HA] Hext. split.
  - intros f' l' Hi Hl.
    destruct (store_extends_field _ _ _ _ Hext Hi) as (f & Hf & _ & Hg).
    eapply grows_elem_of; [exact Hg|exact Hl|]. intros l. by apply HF.
  - intros a' l' Hj Hl.
    destruct (store_extends_agg _ _ _ _ Hext Hj) as (a & Ha & _ & Hg).
    eapply grows_elem_of; [exact Hg|exact Hl|]. intros l. by apply HA.
Qed.

(** [mix] does record the link when the gate is open. *)
Lemma mix_linked f a s field aggregation :
  s_fields s !! f = Some field → s_aggs s !! a = Some aggregation →
  gateOpen rollupFields field aggregation →
  linked (mix_result rollupFields f a s) f a.
Proof.
  intros Hf Ha Hg. unfold mix_result. rewrite Hf, Ha.
  apply gate_spec in Hg. rewrite Hg. split; simpl.
  - intros f' l. rewrite list_lookup_alter_eq, Hf. intros [= <-].
    unfold push_agg. destruct (f_aggs field) eqn:E; simpl; [|congruence].
    intros [= <-]. apply elem_of_app. right. by left.
  - intros a' l. rewrite list_lookup_alter_eq, Ha. intros [= <-].
    unfold push_field. destruct (a_fields aggregation) eqn:E; simpl; [|congruence].
    intros [= <-]. apply elem_of_app. right. by left.
Qed.

Variables (fields0 : list Field) (aggs0 : list Aggregation).

Let s0 : Store := {| s_fields := fields0; s_aggs := aggs0 |}.
Let textAndKeywordFields := getTextAndKeywordFields fields0.
Let numericalFields := getNumericalFields fields0.
Let body := linkAgg_result METRIC_AGG_TYPE (mix_result rollupFields)
              textAndKeywordFields numericalFields.
Let mayLink := mayLink METRIC_AGG_TYPE rollupFields fields0 aggs0.
Let linkedStore := linkedStore METRIC_AGG_TYPE rollupFields fields0 aggs0.

Lemma mix_loop_extends (refs : list FieldRef) a s :
  store_extends s (forEach refs s (λ s f, mix_result rollupFields f a s)).
Proof.
  apply (forEach_invariant (store_extends s)); [reflexivity|].
  intros s' f _ Hs'. etrans; [exact Hs'|apply mix_extends].
Qed.

Lemma linkAgg_extends s a : store_extends s (body s a).
Proof.
  unfold body, linkAgg_result.
  destruct (s_aggs s !! a) as [aggregation|]; [|reflexivity].
  repeat case_bool_decide; try reflexivity.
  - etrans; apply mix_loop_extends.
  - apply mix_loop_extends.
Qed.

Lemma mix_loop_links_sat (refs : list FieldRef) (p : Field → bool) a a0 s :
  (∀ f, f ∈ refs → ∃ x, fields0 !! f = Some x ∧ p x) →
  aggs0 !! a = Some a0 →
  (∀ x, p x → typeRule METRIC_AGG_TYPE x a0) →
  store_extends s0 s → links_sat mayLink s →
  links_sat mayLink (forEach refs s (λ s f, mix_result rollupFields f a s)).
Proof.
  intros Hrefs Ha0 Hrule Hext Hsat.
  apply (forEach_invariant (λ s', store_extends s0 s' ∧ links_sat mayLink s'));
    [done|].
  intros s' f Hf [Hext' Hsat']. split; [etrans; [exact Hext'|apply mix_extends]|].
  apply mix_links_sat; [done|].
  intros field aggregation Hfield Hagg Hgate.
  destruct (Hrefs f Hf) as (x & Hx & Hpx).
  destruct (store_extends_field _ _ _ _ Hext' Hfield) as (x' & Hx' & Hmx & _).
  destruct (store_extends_agg _ _ _ _ Hext' Hagg) as (a' & Ha' & Hma & _).
  simpl in Hx', Ha'. rewrite Hx in Hx'. rewrite Ha0 in Ha'.
  injection Hx' as <-. injection Ha' as <-.
  exists x, a0. split; [done|]. split; [done|]. split; [by apply Hrule|].
  by eapply gateOpen_meta.
Qed.

Lemma linkAgg_links_sat s a :
  store_extends s0 s → links_sat mayLink s → links_sat mayLink (body s a).
Proof.
  intros Hext Hsat. unfold body, linkAgg_result.
  destruct (s_aggs s !! a) as [aggregation|] eqn:Ha; [|done].
  destruct (store_extends_agg _ _ _ _ Hext Ha) as (a0 & Ha0 & Hma & _).
  simpl in Ha0. injection Hma as _ Hdsl Htype.
  case_bool_decide as Hmetric; [|done].
  case_bool_decide as Hcard.
  - eapply (mix_loop_links_sat _ isNumerical); eauto.
    + intros f Hf. by apply elem_of_filter_refs in Hf.
    + intros x Hx. repeat split; [congruence| |by left].
      rewrite Hdsl, Hcard. done.
    + etrans; [exact Hext|apply mix_loop_extends].
    + eapply (mix_loop_links_sat _ isTextOrKeyword); eauto.
      * intros f Hf. by apply elem_of_filter_refs in Hf.
      * intros x Hx. repeat split; [congruence| |right; split; [congruence|done]].
        rewrite Hdsl, Hcard. done.
  - case_bool_decide as Hcount; [done|].
    eapply (mix_loop_links_sat _ isNumerical); eauto.
    + intros f Hf. by apply elem_of_filter_refs in Hf.
    + intros x Hx. repeat split; [congruence|congruence|by left].
Qed.

Lemma linkedStore_extends : store_extends s0 linkedStore.
Proof.
  apply (forEach_invariant (store_extends s0)); [reflexivity|].
  intros s a _ Hs. etrans; [exact Hs|apply linkAgg_extends].
Qed.

Lemma linkedStore_links_sat :
  links_sat mayLink s0 → links_sat mayLink linkedStore.
Proof.
  intros Hsat.
  apply (forEach_invariant (λ s, store_extends s0 s ∧ links_sat mayLink s));
    [split; [reflexivity|done]|].
  intros s a _ [Hext Hs]. split; [etrans; [exact Hext|apply linkAgg_extends]|].
  by apply linkAgg_links_sat.
Qed.

Lemma mix_loop_linked (refs : list nat) i j s f0 a0 :
  i ∈ refs → fields0 !! i = Some f0 → aggs0 !! j = Some a0 →
  gateOpen rollupFields f0 a0 → store_extends s0 s →
  linked (forEach refs s (λ s f, mix_result rollupFields f j s)) i j.
Proof.
  intros Hi Hf0 Ha0 Hgate Hext.
  apply (forEach_establishes store_extends (store_extends s0)
           (λ s, linked s i j) refs s _ i); try done.
  - intros s' f Hs'. etrans; [exact Hs'|apply mix_extends].
  - intros s' Hs'.
    destruct (store_extends_field_l _ _ i f0 Hs' Hf0) as (f' & Hf' & Hmf & _).
    destruct (store_extends_agg_l _ _ j a0 Hs' Ha0) as (a' & Ha' & Hma & _).
    eapply mix_linked; [exact Hf'|exact Ha'|]. by eapply gateOpen_meta.
  - intros s1 s2 Hl Hs. by eapply linked_extends.
  - intros s' f. apply mix_extends.
Qed.

Lemma linkAgg_linked i j s f0 a0 :
  fields0 !! i = Some f0 → aggs0 !! j = Some a0 →
  typeRule METRIC_AGG_TYPE f0 a0 → gateOpen rollupFields f0 a0 →
  store_extends s0 s → linked (body s j) i j.
Proof.
  intros Hf0 Ha0 (Htype & Hcount & Hkind) Hgate Hext. unfold body, linkAgg_result.
  destruct (store_extends_agg_l _ _ j a0 Hext Ha0) as (a' & Ha' & Hma & _).
  rewrite Ha'. injection Hma as _ Hdsl Hty.
  rewrite bool_decide_true by congruence.
  assert (Hnum : isNumerical f0 → i ∈ numericalFields).
  { intros Hn. apply elem_of_filter_refs. by exists f0. }
  case_bool_decide as Hcard.
  - destruct Hkind as [Hn|[_ Htk]].
    + eapply mix_loop_linked; eauto.
      etrans; [exact Hext|apply mix_loop_extends].
    + eapply linked_extends; [|apply mix_loop_extends].
      eapply mix_loop_linked; eauto.
      apply elem_of_filter_refs. by exists f0.
  - rewrite bool_decide_false by congruence.
    destruct Hkind as [Hn|[Hc _]]; [|congruence].
    eapply mix_loop_linked; eauto.
Qed.

(** Every pair the rules allow is linked when the loop is done. *)
Lemma linkedStore_linked i j f0 a0 :
  fields0 !! i = Some f0 → aggs0 !! j = Some a0 →
  typeRule METRIC_AGG_TYPE f0 a0 → gateOpen rollupFields f0 a0 →
  linked linkedStore i j.
Proof.
  intros Hf0 Ha0 Hrule Hgate.
  apply (forEach_establishes store_extends (store_extends s0)
           (λ s, linked s i j) (seq 0 (length aggs0)) s0 body j).
  - apply elem_of_seq. apply lookup_lt_Some in Ha0. lia.
  - reflexivity.
  - intros s a Hs. etrans; [exact Hs|apply linkAgg_extends].
  - intros s Hs. by eapply linkAgg_linked.
  - intros s1 s2 Hl Hs. by eapply linked_extends.
  - intros s a. apply linkAgg_extends.
Qed.

End Linking.

(** ** Where the cross-referencing throws *)

Lemma forEachE_cases {A S} (I : S → Prop) (T : A → Prop) (e : Exn)
    (l : list A) (s : S) (bodyE : S → A → Exn + S) (body : S → A → S) :
  I s →
  (∀ s x, x ∈ l → I s → I (body s x)) →
  (∀ s x, x ∈ l → I s →
     (T x ∧ bodyE s x = inl e) ∨ (¬ T x ∧ bodyE s x = inr (body s x))) →
  ((∃ x, x ∈ l ∧ T x) ∧ forEachE l s bodyE = inl e)
  ∨ ((∀ x, x ∈ l → ¬ T x) ∧ forEachE l s bodyE = inr (forEach l s body)).
Proof.
  revert s. induction l as [|x l IH]; intros s Hs HI Hbody.
  - right. split; [|done]. intros x Hx. by apply elem_of_nil in Hx.
  - cbn [forEachE]. rewrite forEach_cons.
    destruct (Hbody s x (list_elem_of_here _ _) Hs) as [[Hx ->]|[Hx ->]].
    + left. split; [|done]. exists x. split; [left|done].
    + destruct (IH (body s x)) as [[(y & Hy & Hty) ->]|[Hnone ->]].
      * apply HI; [left|done].
      * intros s' y Hy. apply HI. by right.
      * intros s' y Hy. apply Hbody. by right.
      * left. split; [|done]. exists y. split; [by right|done].
      * right. split; [|done]. intros y [->|Hy]%elem_of_cons; [done|by apply Hnone].
Qed.

Lemma permits_eq (rollupFields : gmap string (list RollupAgg)) id dslName :
  permits rollupFields id dslName
  = if inheritedOnly rollupFields id
    then inl TypeError
    else inr (listed rollupFields id dslName).
Proof.
  unfold permits, inheritedOnly, listed, prop.
  destruct (rollupFields !! id) as [entries|]; simpl.
  - by rewrite andb_false_r.
  - rewrite andb_true_r. by destruct (bool_decide (id ∈ inheritedMembers)).
Qed.

Section Throwing.

Variable METRIC_AGG_TYPE : string.
Variable rollupFields : gmap string (list RollupAgg).
Variables (fields0 : list Field) (aggs0 : list Aggregation).

Let s0 : Store := {| s_fields := fields0; s_aggs := aggs0 |}.
Let e : Exn := TypeError.

(** [mix] would throw at the field at [i]. *)
Let throwsAt (i : FieldRef) : Prop :=
  0 < size rollupFields
  ∧ ∃ f, fields0 !! i = Some f ∧ inheritedOnly rollupFields (f_id f).

Lemma mixFactory_cases f a s :
  store_extends s0 s → is_Some (aggs0 !! a) →
  (throwsAt f ∧ mixFactory rollupFields f a s = inl e)
  ∨ (¬ throwsAt f
     ∧ mixFactory rollupFields f a s = inr (mix_result rollupFields f a s)).
Proof.
  intros Hext [a0 Ha0]. unfold mixFactory, mix_result, throwsAt.
  destruct (store_extends_agg_l _ _ a a0 Hext Ha0) as (a' & -> & _).
  destruct (s_fields s !! f) as [field|] eqn:Hf.
  - destruct (store_extends_field _ _ _ _ Hext Hf) as (f0 & Hf0 & Hm & _).
    simpl in Hf0. injection Hm as Hid _ _ _.
    case_bool_decide as Hsize; simpl.
    + rewrite permits_eq.
      destruct (inheritedOnly rollupFields (f_id field)) eqn:Hio.
      * left. split; [|done]. split; [done|]. exists f0. split; [done|].
        by rewrite Hid, Hio.
      * right. split.
        -- intros (_ & f1 & Hf1 & Hin). rewrite Hf0 in Hf1. injection Hf1 as <-.
           rewrite Hid, Hio in Hin. done.
        -- by destruct (listed _ _ _).
    + right. split; [|done]. by intros [? _].
  - right. split; [|done]. intros (_ & f0 & Hf0 & _).
    destruct (store_extends_field_l _ _ f f0 Hext Hf0) as (f' & Hf' & _).
    congruence.
Qed.

Lemma mix_loop_cases (refs : list FieldRef) a s :
  store_extends s0 s → is_Some (aggs0 !! a) →
  ((∃ i, i ∈ refs ∧ throwsAt i)
   ∧ forEachE refs s (λ s f, mixFactory rollupFields f a s) = inl e)
  ∨ ((∀ i, i ∈ refs → ¬ throwsAt i)
     ∧ forEachE refs s (λ s f, mixFactory rollupFields f a s)
       = inr (forEach refs s (λ s f, mix_result rollupFields f a s))).
Proof.
  intros Hext Ha.
  apply (forEachE_cases (store_extends s0) throwsAt e); [done| |].
  - intros s' f _ Hs'. etrans; [exact Hs'|apply mix_extends].
  - intros s' f _ Hs'. by apply mixFactory_cases.
Qed.

(** The cross-referencing would throw at the aggregation at [j]. *)
Let throwsFor (j : AggRef) : Prop :=
  0 < size rollupFields
  ∧ ∃ i f a, fields0 !! i = Some f ∧ aggs0 !! j = Some a
             ∧ typeRule METRIC_AGG_TYPE f a
             ∧ inheritedOnly rollupFields (f_id f).

Lemma linkAgg_cases s a :
  store_extends s0 s →
  (throwsFor a
   ∧ linkAgg METRIC_AGG_TYPE (mixFactory rollupFields)
       (getTextAndKeywordFields fields0) (getNumericalFields fields0) s a = inl e)
  ∨ (¬ throwsFor a
     ∧ linkAgg METRIC_AGG_TYPE (mixFactory rollupFields)
         (getTextAndKeywordFields fields0) (getNumericalFields fields0) s a
       = inr (linkAgg_result METRIC_AGG_TYPE (mix_result rollupFields)
                (getTextAndKeywordFields fields0) (getNumericalFields fields0) s a)).
Proof.
  intros Hext. unfold linkAgg, linkAgg_result, throwsFor.
  destruct (s_aggs s !! a) as [aggregation|] eqn:Ha.
  2:{ right. split; [|done]. intros (_ & i & f & a0 & _ & Ha0 & _).
      destruct (store_extends_agg_l _ _ a a0 Hext Ha0) as (a' & Ha' & _).
      congruence. }
  destruct (store_extends_agg _ _ _ _ Hext Ha) as (a0 & Ha0 & Hma & _).
  simpl in Ha0. injection Hma as _ Hdsl Htype.
  assert (is_Some (aggs0 !! a)) as Hsome by (by exists a0).
  assert (∀ (refs : list nat) (p : Field → bool),
    (∀ i, i ∈ refs ↔ ∃ x, fields0 !! i = Some x ∧ p x) →
    (∀ x, p x → typeRule METRIC_AGG_TYPE x a0) →
    (∃ i, i ∈ refs ∧ throwsAt i) →
    0 < size rollupFields
    ∧ ∃ i f a1, fields0 !! i = Some f ∧ aggs0 !! a = Some a1
                ∧ typeRule METRIC_AGG_TYPE f a1
                ∧ inheritedOnly rollupFields (f_id f)) as Hthrow.
  { intros refs p Hrefs Hrule (i & Hi & Hsize & f & Hf & Hin).
    split; [done|]. exists i, f, a0. split; [done|]. split; [done|].
    split; [|done]. apply Hrule. apply Hrefs in Hi as (x & Hx & Hpx).
    rewrite Hf in Hx. by injection Hx as <-. }
  assert (∀ (refs : list nat) (p : Field → bool),
    (∀ i, i ∈ refs ↔ ∃ x, fields0 !! i = Some x ∧ p x) →
    (∀ i, i ∈ refs → ¬ throwsAt i) →
    ∀ i f, fields0 !! i = Some f → p f → 0 < size rollupFields →
           ¬ inheritedOnly rollupFields (f_id f)) as Hnone.
  { intros refs p Hrefs Hno i f Hf Hp Hsize Hin. apply (Hno i).
    - apply Hrefs. by exists f.
    - split; [done|]. by exists f. }
  pose proof (λ i, elem_of_filter_refs isTextOrKeyword fields0 i) as Htk.
  pose proof (λ i, elem_of_filter_refs isNumerical fields0 i) as Hnum.
  fold (getTextAndKeywordFields fields0) in Htk.
  fold (getNumericalFields fields0) in Hnum.
  case_bool_decide as Hmetric.
  2:{ right. split; [|done]. intros (_ & i & f & a1 & _ & Ha1 & (Hty & _) & _).
      rewrite Ha0 in Ha1. injection Ha1 as <-. congruence. }
  case_bool_decide as Hcard.
  - assert (a_dslName a0 ≠ ES_AGGREGATION.COUNT) as Hnc.
    { rewrite Hdsl, Hcard. done. }
    destruct (mix_loop_cases (getTextAndKeywordFields fields0) a s Hext Hsome)
      as [[Hex ->]|[Hno1 ->]].
    + left. split; [|done]. apply (Hthrow _ isTextOrKeyword Htk); [|done].
      intros x Hx. split; [congruence|]. split; [done|].
      right. split; [congruence|done].
    + set (s1 := forEach _ s _).
      assert (store_extends s0 s1) as Hext1.
      { etrans; [exact Hext|]. apply mix_loop_extends. }
      destruct (mix_loop_cases (getNumericalFields fields0) a s1 Hext1 Hsome)
        as [[Hex ->]|[Hno2 ->]].
      * left. split; [|done]. apply (Hthrow _ isNumerical Hnum); [|done].
        intros x Hx. split; [congruence|]. split; [done|]. by left.
      * right. split; [|done].
        intros (Hsize & i & f & a1 & Hf & Ha1 & (_ & _ & Hkind) & Hin).
        destruct Hkind as [Hn|[_ Ht]].
        -- by apply (Hnone _ isNumerical Hnum Hno2 i f).
        -- by apply (Hnone _ isTextOrKeyword Htk Hno1 i f).
  - case_bool_decide as Hcount.
    + right. split; [|done].
      intros (_ & i & f & a1 & _ & Ha1 & (_ & Hc & _) & _).
      rewrite Ha0 in Ha1. injection Ha1 as <-. congruence.
    + destruct (mix_loop_cases (getNumericalFields fields0) a s Hext Hsome)
        as [[Hex ->]|[Hno2 ->]].
      * left. split; [|done]. apply (Hthrow _ isNumerical Hnum); [|done].
        intros x Hx. split; [congruence|]. split; [congruence|]. by left.
      * right. split; [|done].
        intros (Hsize & i & f & a1 & Hf & Ha1 & (_ & _ & Hkind) & Hin).
        rewrite Ha0 in Ha1. injection Ha1 as <-.
        destruct Hkind as [Hn|[Hc _]]; [|congruence].
        by apply (Hnone _ isNumerical Hnum Hno2 i f).
Qed.

(** [combineFieldsAndAggs] throws under [crossThrows], and otherwise
    returns [combine_result]. *)
Lemma combineFieldsAndAggs_cases :
  (crossThrows METRIC_AGG_TYPE rollupFields fields0 aggs0
   ∧ combineFieldsAndAggs METRIC_AGG_TYPE fields0 aggs0 rollupFields = inl e)
  ∨ (¬ crossThrows METRIC_AGG_TYPE rollupFields fields0 aggs0
     ∧ combineFieldsAndAggs METRIC_AGG_TYPE fields0 aggs0 rollupFields
       = inr (combine_result METRIC_AGG_TYPE fields0 aggs0 rollupFields)).
Proof.
  unfold combineFieldsAndAggs, combine_result, crossThrows.
  destruct (forEachE_cases (store_extends s0) throwsFor e
              (seq 0 (length aggs0)) s0
              (linkAgg METRIC_AGG_TYPE (mixFactory rollupFields)
                 (getTextAndKeywordFields fields0) (getNumericalFields fields0))
              (linkAgg_result METRIC_AGG_TYPE (mix_result rollupFields)
                 (getTextAndKeywordFields fields0) (getNumericalFields fields0)))
    as [[(j & _ & Hsize & i & f & a & H) Heq]|[Hno Heq]].
  - reflexivity.
  - intros s a _ Hs. etrans; [exact Hs|apply linkAgg_extends].
  - intros s a _ Hs. by apply linkAgg_cases.
  - left. split; [by split; [|exists i, j, f, a]|].
    fold s0. by rewrite Heq.
  - right. split; [|fold s0; by rewrite Heq].
    intros (Hsize & i & j & f & a & Hf & Ha & H). apply (Hno j).
    + apply elem_of_seq. apply lookup_lt_Some in Ha. lia.
    + split; [done|]. by exists i, f, a.
Qed.

Lemma combineFieldsAndAggs_returns r :
  combineFieldsAndAggs METRIC_AGG_TYPE fields0 aggs0 rollupFields = inr r →
  r = combine_result METRIC_AGG_TYPE fields0 aggs0 rollupFields
  ∧ ¬ crossThrows METRIC_AGG_TYPE rollupFields fields0 aggs0.
Proof.
  destruct combineFieldsAndAggs_cases as [[_ ->]|[Hno ->]]; [done|].
  by intros [= <-].
Qed.

Lemma combineFieldsAndAggs_throws x :
  combineFieldsAndAggs METRIC_AGG_TYPE fields0 aggs0 rollupFields = inl x →
  x = e ∧ crossThrows METRIC_AGG_TYPE rollupFields fields0 aggs0.
Proof.
  destruct combineFieldsAndAggs_cases as [[Hc ->]|[_ ->]]; [|done].
  by intros [= <-].
Qed.

End Throwing.

(** With no rollup map nothing is looked up in it, and nothing throws. *)
Lemma combineFieldsAndAggs_no_rollup METRIC_AGG_TYPE fields0 aggs0 rollupFields :
  size rollupFields = 0 →
  combineFieldsAndAggs METRIC_AGG_TYPE fields0 aggs0 rollupFields
  = inr (combine_result METRIC_AGG_TYPE fields0 aggs0 rollupFields).
Proof.
  intros Hsize.
  destruct (combineFieldsAndAggs_cases METRIC_AGG_TYPE rollupFields fields0 aggs0)
    as [[[Hpos _] _]|[_ ->]]; [lia|done].
Qed.

(** ** The rollup merge *)

(** The test [=== null] on what [find] returns never holds: nothing is
    pushed, and a field name already in the map keeps its entry.  A name
    that the map inherits is never stored, and looking for an aggregation
    under it throws. *)
Lemma mergeField_eq (rollupFields : gmap string (list RollupAgg)) fieldName confAggs :
  mergeField rollupFields (fieldName, confAggs)
  = match rollupFields !! fieldName with
    | Some _ => inr rollupFields
    | None =>
        if bool_decide (fieldName ∈ inheritedMembers) then
          match confAggs with
          | [] => inr rollupFields
          | _ :: _ => inl TypeError
          end
        else inr (<[fieldName := confAggs]> rollupFields)
    end.
Proof.
  unfold mergeField, prop.
  destruct (rollupFields !! fieldName) as [current|] eqn:Hk; simpl.
  - induction confAggs as [|a confAggs IH]; simpl; [done|].
    rewrite Hk. simpl. rewrite find_not_null. exact IH.
  - destruct (bool_decide (fieldName ∈ inheritedMembers)); simpl; [|done].
    destruct confAggs as [|a confAggs]; simpl; [done|]. by rewrite Hk.
Qed.

Lemma ownNamesOnly_empty : ownNamesOnly ∅.
Proof. intros k _. apply lookup_empty. Qed.

Lemma mergeField_loop (entries : list (string * list RollupAgg))
    (m : gmap string (list RollupAgg)) :
  ownNamesOnly m →
  if existsb throwingEntry entries
  then forEachE entries m mergeField = inl TypeError
  else ∃ m', forEachE entries m mergeField = inr m'
        ∧ ownNamesOnly m'
        ∧ ∀ k, m' !! k
             = match m !! k with
               | Some v => Some v
               | None => if bool_decide (k ∈ inheritedMembers) then None
                         else entryOf k entries
               end.
Proof.
  revert m. induction entries as [|[k' v] entries IH]; intros m Hm.
  - simpl. exists m. split; [done|]. split; [done|].
    intros k. destruct (m !! k) eqn:Hk; [done|]. by destruct (bool_decide _).
  - cbn [existsb forEachE]. rewrite mergeField_eq.
    unfold throwingEntry at 1. cbn [fst snd].
    destruct (bool_decide (k' ∈ inheritedMembers)) eqn:Hin.
    + apply bool_decide_eq_true in Hin. rewrite (Hm k' Hin).
      destruct v as [|a v]; [|done]. simpl.
      specialize (IH m Hm). destruct (existsb throwingEntry entries); [done|].
      destruct IH as (m' & -> & Hown & Hlook). exists m'.
      split; [done|]. split; [done|]. intros k. rewrite Hlook.
      destruct (m !! k); [done|].
      destruct (bool_decide (k ∈ inheritedMembers)) eqn:Hk; [done|].
      simpl. destruct (decide (k' = k)) as [->|_]; [|done].
      apply bool_decide_eq_false in Hk. done.
    + apply bool_decide_eq_false in Hin. simpl.
      destruct (m !! k') as [w|] eqn:Hk'.
      * specialize (IH m Hm). destruct (existsb throwingEntry entries); [done|].
        destruct IH as (m' & -> & Hown & Hlook). exists m'.
        split; [done|]. split; [done|]. intros k. rewrite Hlook.
        destruct (m !! k) eqn:Hk; [done|].
        destruct (bool_decide (k ∈ inheritedMembers)); [done|].
        simpl. destruct (decide (k' = k)) as [->|_]; [congruence|done].
      * assert (ownNamesOnly (<[k' := v]> m)) as Hm'.
        { intros k Hk. rewrite lookup_insert_ne; [by apply Hm|]. by intros ->. }
        specialize (IH _ Hm'). destruct (existsb throwingEntry entries); [done|].
        destruct IH as (m' & -> & Hown & Hlook). exists m'.
        split; [done|]. split; [done|]. intros k. rewrite Hlook. simpl.
        destruct (decide (k' = k)) as [->|Hne].
        -- rewrite lookup_insert_eq, Hk'.
           by rewrite bool_decide_eq_false_2.
        -- by rewrite lookup_insert_ne.
Qed.

(** What the merge computes: it throws when a job lists aggregations under
    the name of an inherited member, and otherwise returns, for each other
    field name, the entry of the first job that lists it. *)
Lemma combineAllRollupFields_spec (rollupConfigs : list RollupJob) :
  if mergeThrows rollupConfigs
  then combineAllRollupFields rollupConfigs
       = inl TypeError
  else ∃ m, combineAllRollupFields rollupConfigs = inr m
        ∧ ownNamesOnly m
        ∧ ∀ k, m !! k = if bool_decide (k ∈ inheritedMembers) then None
                        else firstEntry k rollupConfigs.
Proof.
  unfold combineAllRollupFields, mergeThrows.
  set (body := λ (rollupFields : gmap string (list RollupAgg)) conf,
                 forEachE (job_fields conf) rollupFields mergeField).
  assert (∀ m : gmap string (list RollupAgg), ownNamesOnly m →
    if existsb (λ conf, existsb throwingEntry (job_fields conf)) rollupConfigs
    then forEachE rollupConfigs m body = inl TypeError
    else ∃ m', forEachE rollupConfigs m body = inr m'
          ∧ ownNamesOnly m'
          ∧ ∀ k, m' !! k
               = match m !! k with
                 | Some v => Some v
                 | None => if bool_decide (k ∈ inheritedMembers) then None
                           else firstEntry k rollupConfigs
                 end) as Hgen.
  { induction rollupConfigs as [|conf rest IH]; intros m Hm.
    - simpl. exists m. split; [done|]. split; [done|].
      intros k. destruct (m !! k); [done|]. by destruct (bool_decide _).
    - cbn [existsb forEachE]. unfold body at 1 3.
      pose proof (mergeField_loop (job_fields conf) m Hm) as H1.
      destruct (existsb throwingEntry (job_fields conf)).
      + by rewrite H1.
      + destruct H1 as (m1 & -> & Hm1 & Hl1). simpl.
        specialize (IH m1 Hm1).
        destruct (existsb _ rest); [done|].
        destruct IH as (m' & -> & Hown & Hlook). exists m'.
        split; [done|]. split; [done|]. intros k. rewrite Hlook, Hl1.
        destruct (m !! k); [done|]. simpl.
        destruct (bool_decide (k ∈ inheritedMembers)); [done|].
        by destruct (entryOf k (job_fields conf)). }
  specialize (Hgen ∅ ownNamesOnly_empty).
  destruct (existsb _ rollupConfigs); [done|].
  destruct Hgen as (m' & -> & Hown & Hlook). exists m'.
  split; [done|]. split; [done|]. intros k. rewrite Hlook.
  by rewrite lookup_empty.
Qed.

Lemma combineAllRollupFields_lookup (rollupConfigs : list RollupJob) m k :
  combineAllRollupFields rollupConfigs = inr m →
  m !! k = if bool_decide (k ∈ inheritedMembers) then None
           else firstEntry k rollupConfigs.
Proof.
  intros Hm. pose proof (combineAllRollupFields_spec rollupConfigs) as H.
  destruct (mergeThrows rollupConfigs); [congruence|].
  destruct H as (m' & Hm' & _ & Hlook). rewrite Hm in Hm'.
  injection Hm' as <-. apply Hlook.
Qed.

Lemma combineAllRollupFields_own (rollupConfigs : list RollupJob) m :
  combineAllRollupFields rollupConfigs = inr m → ownNamesOnly m.
Proof.
  intros Hm k Hk. rewrite (combineAllRollupFields_lookup _ _ _ Hm).
  by rewrite bool_decide_eq_true_2.
Qed.

Lemma combineAllRollupFields_returns (rollupConfigs : list RollupJob) :
  mergeThrows rollupConfigs = false →
  ∃ m, combineAllRollupFields rollupConfigs = inr m.
Proof.
  intros Hm. pose proof (combineAllRollupFields_spec rollupConfigs) as H.
  rewrite Hm in H. destruct H as (m & ? & _). by exists m.
Qed.

Lemma combineAllRollupFields_throws (rollupConfigs : list RollupJob) :
  mergeThrows rollupConfigs = true →
  combineAllRollupFields rollupConfigs = inl TypeError.
Proof.
  intros Hm. pose proof (combineAllRollupFields_spec rollupConfigs) as H.
  by rewrite Hm in H.
Qed.

(** ** Building the fields *)

Lemma addField_app acc e : addField acc e = acc ++ addField [] e.
Proof.
  destruct e as [k fc]. unfold addField.
  destruct (head fc) as [[firstKey field]|]; [|by rewrite app_nil_r].
  destruct (fc_type field) as [t|]; [|by rewrite app_nil_r].
  destruct (includes _ _); [done|by rewrite app_nil_r].
Qed.

Lemma addField_elem_of k fc f :
  f ∈ addField [] (k, fc)
  ↔ ∃ v d rest t,
      fc = (v, d) :: rest ∧ fc_type d = Some t ∧ t ∈ supportedTypes
      ∧ f = {| f_id := k; f_name := k; f_type := t;
               f_aggregatable := fc_aggregatable d; f_aggs := Some [] |}.
Proof.
  unfold addField. split.
  - destruct fc as [|[v d] rest]; simpl; [by intros ?%elem_of_nil|].
    destruct (fc_type d) as [t|] eqn:Ht; [|by intros ?%elem_of_nil].
    case_bool_decide as Hin; [|by intros ?%elem_of_nil].
    intros ->%list_elem_of_singleton. by exists v, d, rest, t.
  - intros (v & d & rest & t & -> & Ht & Hin & ->). simpl. rewrite Ht.
    rewrite bool_decide_true by done. by left.
Qed.

Lemma addField_loop_elem_of (report : list (string * list (string * FieldCapability)))
    acc f :
  f ∈ forEach report acc addField
  ↔ f ∈ acc ∨ ∃ k fc, (k, fc) ∈ report ∧ f ∈ addField [] (k, fc).
Proof.
  revert acc. induction report as [|[k fc] report IH]; intros acc.
  - rewrite forEach_nil. split; [by left|].
    intros [?|(? & ? & ?%elem_of_nil & _)]; done.
  - rewrite forEach_cons, IH, addField_app, elem_of_app. split.
    + intros [[?|?]|(k' & fc' & ? & ?)]; [by left| |].
      * right. exists k, fc. split; [by left|done].
      * right. exists k', fc'. split; [by right|done].
    + intros [?|(k' & fc' & [[= -> ->]|?]%elem_of_cons & ?)].
      * left. by left.
      * left. by right.
      * right. by exists k', fc'.
Qed.

Lemma collectFields_fresh o : Forall fresh (collectFields o).
Proof.
  apply Forall_forall. intros f Hf. unfold collectFields in Hf.
  destruct o as [[[report|]]|]; try by apply elem_of_nil in Hf.
  apply addField_loop_elem_of in Hf as [?%elem_of_nil|(k & fc & _ & Hf)]; [done|].
  apply addField_elem_of in Hf as (v & d & rest & t & _ & _ & _ & ->). done.
Qed.

Lemma fieldsCreated_fresh cmp o : Forall fresh (fieldsCreated cmp o).
Proof.
  unfold fieldsCreated. rewrite sort_perm. apply collectFields_fresh.
Qed.

Lemma NoDup_keys_unique {A} (l : list (string * A)) k v1 v2 :
  NoDup l.*1 → (k, v1) ∈ l → (k, v2) ∈ l → v1 = v2.
Proof.
  induction l as [|[k' v'] l IH]; csimpl; intros Hnd H1 H2.
  - by apply elem_of_nil in H1.
  - apply NoDup_cons in Hnd as [Hk' Hnd].
    apply elem_of_cons in H1 as [H1|H1]; apply elem_of_cons in H2 as [H2|H2].
    + congruence.
    + injection H1 as -> ->. destruct Hk'.
      apply list_elem_of_fmap. by exists (k', v2).
    + injection H2 as -> ->. destruct Hk'.
      apply list_elem_of_fmap. by exists (k', v1).
    + by apply IH.
Qed.

Lemma numerical_types (f : Field) :
  isNumerical f
  ↔ f_type f = ES_FIELD_TYPES.DOUBLE ∨ f_type f = ES_FIELD_TYPES.FLOAT
    ∨ f_type f = ES_FIELD_TYPES.LONG.
Proof.
  unfold isNumerical. rewrite !orb_True, !bool_decide_spec. tauto.
Qed.

Lemma numeric_supported (t : string) :
  t ∈ [ES_FIELD_TYPES.DOUBLE; ES_FIELD_TYPES.FLOAT; ES_FIELD_TYPES.LONG] →
  t ∈ supportedTypes.
Proof.
  rewrite !elem_of_cons, elem_of_nil. intros [->|[->|[->|[]]]]; compute_done.
Qed.

Lemma text_keyword_types (f : Field) :
  isTextOrKeyword f
  ↔ f_type f = ES_FIELD_TYPES.KEYWORD ∨ f_type f = ES_FIELD_TYPES.TEXT.
Proof.
  unfold isTextOrKeyword. rewrite !orb_True, !bool_decide_spec. tauto.
Qed.

Lemma text_keyword_not_numerical (f : Field) :
  isTextOrKeyword f → ¬ isNumerical f.
Proof.
  rewrite text_keyword_types, numerical_types.
  intros [->| ->] [?|[?|?]]; discriminate.
Qed.

(** ** Running [getData] *)

Section Running.

Variable localeCompare : string → string → Z.
Variable METRIC_AGG_TYPE : string.

Lemma run_createFields w ip :
  run w (createFields localeCompare ip)
  = match fieldCaps w ip with
    | inl e => ([EvFieldCaps ip], inl e)
    | inr o => ([EvFieldCaps ip], inr (fieldsCreated localeCompare o))
    end.
Proof.
  unfold createFields, loadFieldCaps. simpl. by destruct (fieldCaps w ip).
Qed.

Lemma run_liftE {A} w (x : Exn + A) : run w (liftE x) = ([], x).
Proof. by destruct x. Qed.

Lemma run_bind_liftE {A B} w (p : Prog A) (g : A → Exn + B) :
  run w (p ≫= λ a, liftE (g a))
  = match run w p with
    | (t, inl e) => (t, inl e)
    | (t, inr a) => (t, g a)
    end.
Proof.
  induction p as [a|e|X c k IH]; cbn [mbind Prog_bind prog_bind run].
  - rewrite run_liftE. done.
  - done.
  - destruct (handle w c) as [e|x]; [done|].
    fold (@mbind Prog _). rewrite IH.
    by destruct (run w (k x)) as [t [e|a]].
Qed.

(** After the rollup lookup, if any: fetch, build the fields, link. *)
Lemma run_finish w ip' cat rf :
  run w (createFields localeCompare ip'
           ≫= λ fields, liftE (combineFieldsAndAggs METRIC_AGG_TYPE fields
                                 (cloneDeep cat) rf))
  = match fieldCaps w ip' with
    | inl e => ([EvFieldCaps ip'], inl e)
    | inr o => ([EvFieldCaps ip'],
                combineFieldsAndAggs METRIC_AGG_TYPE
                  (fieldsCreated localeCompare o) cat rf)
    end.
Proof.
  rewrite run_bind_liftE, run_createFields. by destruct (fieldCaps w ip').
Qed.

(** [getData], call by call. *)
Lemma run_getData w ip isRollup cat :
  run w (getData localeCompare METRIC_AGG_TYPE ip isRollup cat)
  = if isRollup then
      match rollupJobs w ip with
      | inl e => ([EvRollupJobs ip], inl e)
      | inr None => ([EvRollupJobs ip], inr emptyResult)
      | inr (Some jobs) =>
          match combineAllRollupFields jobs with
          | inl e => ([EvRollupJobs ip], inl e)
          | inr rf =>
              match rollupIndexPattern w ip with
              | inl e => ([EvRollupJobs ip; EvIndexPattern ip], inl e)
              | inr ip' =>
                  match fieldCaps w ip' with
                  | inl e =>
                      ([EvRollupJobs ip; EvIndexPattern ip; EvFieldCaps ip'],
                       inl e)
                  | inr o =>
                      ([EvRollupJobs ip; EvIndexPattern ip; EvFieldCaps ip'],
                       combineFieldsAndAggs METRIC_AGG_TYPE
                         (fieldsCreated localeCompare o) cat rf)
                  end
              end
          end
      end
    else
      match fieldCaps w ip with
      | inl e => ([EvFieldCaps ip], inl e)
      | inr o =>
          ([EvFieldCaps ip],
           inr (combine_result METRIC_AGG_TYPE
                  (fieldsCreated localeCompare o) cat ∅))
      end.
Proof.
  unfold getData. destruct isRollup.
  2:{ rewrite run_finish. destruct (fieldCaps w ip) as [e|o]; [done|].
      by rewrite combineFieldsAndAggs_no_rollup. }
  cbn [mbind Prog_bind prog_bind run handle event_of].
  destruct (rollupJobs w ip) as [e|[jobs|]]; [done| |done].
  destruct (combineAllRollupFields jobs) as [e|rf]; [done|].
  cbn [liftE mbind Prog_bind prog_bind run handle event_of].
  destruct (rollupIndexPattern w ip) as [e|ip']; [done|].
  fold (@mbind Prog _). rewrite run_finish.
  by destruct (fieldCaps w ip').
Qed.

(** The ways in which [getData] resolves. *)
Lemma run_getData_inv w ip isRollup cat t r :
  run w (getData localeCompare METRIC_AGG_TYPE ip isRollup cat) = (t, inr r) →
  (isRollup = true ∧ rollupJobs w ip = inr None
   ∧ t = [EvRollupJobs ip] ∧ r = emptyResult)
  ∨ ∃ rf ip' o,
      fieldCaps w ip' = inr o
      ∧ r = combine_result METRIC_AGG_TYPE (fieldsCreated localeCompare o) cat rf
      ∧ ((isRollup = false ∧ rf = ∅ ∧ ip' = ip ∧ t = [EvFieldCaps ip])
         ∨ (isRollup = true
            ∧ ∃ jobs, rollupJobs w ip = inr (Some jobs)
                      ∧ combineAllRollupFields jobs = inr rf
                      ∧ rollupIndexPattern w ip = inr ip'
                      ∧ t = [EvRollupJobs ip; EvIndexPattern ip; EvFieldCaps ip'])).
Proof.
  rewrite run_getData. destruct isRollup.
  - destruct (rollupJobs w ip) as [e|[jobs|]] eqn:Hjobs; [done| |].
    + destruct (combineAllRollupFields jobs) as [e|rf] eqn:Hrf; [done|].
      destruct (rollupIndexPattern w ip) as [e|ip'] eqn:Hip; [done|].
      destruct (fieldCaps w ip') as [e|o] eqn:Hcaps; [done|].
      intros [= <- Hr]. apply combineFieldsAndAggs_returns in Hr as [-> _].
      right. exists rf, ip', o.
      split; [done|]. split; [done|]. right. split; [done|]. by exists jobs.
    + intros [= <- <-]. by left.
  - destruct (fieldCaps w ip) as [e|o] eqn:Hcaps; [done|].
    intros [= <- <-]. right. exists ∅, ip, o.
    split; [done|]. split; [done|]. by left.
Qed.

End Running.

(** ** What [combine_result] returns *)

Lemma elem_of_deref {A} (l : list A) (refs : list nat) x :
  x ∈ deref l refs ↔ ∃ i, i ∈ refs ∧ l !! i = Some x.
Proof. apply list_elem_of_omap. Qed.

Lemma aggsOf_Some r f l :
  f_aggs f = Some l → aggsOf r f = deref (s_aggs (store r)) l.
Proof. unfold aggsOf. by intros ->. Qed.

Lemma fieldsOf_Some r a l :
  a_fields a = Some l → fieldsOf r a = deref (s_fields (store r)) l.
Proof. unfold fieldsOf. by intros ->. Qed.

Section Combined.

Variable METRIC_AGG_TYPE : string.
Variable rollupFields : gmap string (list RollupAgg).
Variables (fields0 : list Field) (aggs0 : list Aggregation).

Let r := combine_result METRIC_AGG_TYPE fields0 aggs0 rollupFields.
Let s0 : Store := {| s_fields := fields0; s_aggs := aggs0 |}.

Lemma combined_extends : store_extends s0 (store r).
Proof. apply linkedStore_extends. Qed.

Lemma combined_returnedFields :
  returnedFields r = filter (λ f, hasAggs f) (s_fields (store r)).
Proof. apply deref_filter_refs. Qed.

Lemma combined_returnedAggs :
  returnedAggs r = filter (λ a, hasFields a) (s_aggs (store r)).
Proof. apply deref_filter_refs. Qed.

Lemma combined_returnedField_inv f :
  f ∈ returnedFields r →
  ∃ i f0 j l, s_fields (store r) !! i = Some f ∧ fields0 !! i = Some f0
              ∧ field_meta f0 = field_meta f ∧ f_aggs f = Some (j :: l).
Proof.
  rewrite combined_returnedFields, list_elem_of_filter. intros [Hhas Hf].
  apply list_elem_of_lookup in Hf as [i Hi].
  destruct (store_extends_field _ _ _ _ combined_extends Hi) as (f0 & Hf0 & Hm & _).
  unfold hasAggs in Hhas. destruct (f_aggs f) as [[|j l]|] eqn:Hl; try done.
  by exists i, f0, j, l.
Qed.

Lemma combined_returnedAgg_inv a :
  a ∈ returnedAggs r →
  ∃ j a0 i l, s_aggs (store r) !! j = Some a ∧ aggs0 !! j = Some a0
              ∧ agg_meta a0 = agg_meta a ∧ a_fields a = Some (i :: l).
Proof.
  rewrite combined_returnedAggs, list_elem_of_filter. intros [Hhas Ha].
  apply list_elem_of_lookup in Ha as [j Hj].
  destruct (store_extends_agg _ _ _ _ combined_extends Hj) as (a0 & Ha0 & Hm & _).
  unfold hasFields in Hhas. destruct (a_fields a) as [[|i l]|] eqn:Hl; try done.
  by exists j, a0, i, l.
Qed.

Hypothesis fields0_fresh : Forall fresh fields0.
Hypothesis aggs0_unlinked : Forall unlinked aggs0.

Lemma initial_links_sat (P : nat → nat → Prop) : links_sat P s0.
Proof.
  split; simpl.
  - intros i f l j Hi Hl Hj.
    eapply Forall_lookup_1 in fields0_fresh; [|exact Hi].
    unfold fresh in fields0_fresh. rewrite Hl in fields0_fresh.
    injection fields0_fresh as ->. by apply elem_of_nil in Hj.
  - intros j a l i Hj Hl Hi.
    eapply Forall_lookup_1 in aggs0_unlinked; [|exact Hj].
    destruct aggs0_unlinked as [Hu|Hu]; rewrite Hl in Hu; [|done].
    injection Hu as ->. by apply elem_of_nil in Hi.
Qed.

Lemma combined_links_sat :
  links_sat (mayLink METRIC_AGG_TYPE rollupFields fields0 aggs0) (store r).
Proof. apply linkedStore_links_sat, initial_links_sat. Qed.

(** A link between two objects of the store obeys the type rules and
    passed the gate. *)
Lemma combined_link_rules i j f a :
  s_fields (store r) !! i = Some f → s_aggs (store r) !! j = Some a →
  (∃ l, f_aggs f = Some l ∧ j ∈ l) ∨ (∃ l, a_fields a = Some l ∧ i ∈ l) →
  typeRule METRIC_AGG_TYPE f a ∧ gateOpen rollupFields f a.
Proof.
  intros Hi Hj Hlink.
  assert (mayLink METRIC_AGG_TYPE rollupFields fields0 aggs0 i j) as Hmay.
  { destruct combined_links_sat as [HF HA].
    destruct Hlink as [(l & Hl & Hin)|(l & Hl & Hin)]; [by eapply HF|by eapply HA]. }
  destruct Hmay as (f0 & a0 & Hf0 & Ha0 & Hrule & Hgate).
  destruct (store_extends_field _ _ _ _ combined_extends Hi) as (f0' & Hf0' & Hmf & _).
  destruct (store_extends_agg _ _ _ _ combined_extends Hj) as (a0' & Ha0' & Hma & _).
  simpl in Hf0', Ha0'. rewrite Hf0 in Hf0'. rewrite Ha0 in Ha0'.
  injection Hf0' as <-. injection Ha0' as <-.
  split; [by eapply typeRule_meta|by eapply gateOpen_meta].
Qed.

Lemma combined_linkedIn_rules f a :
  linkedIn r f a → typeRule METRIC_AGG_TYPE f a ∧ gateOpen rollupFields f a.
Proof.
  intros [[Hf Ha]|[Ha Hf]].
  - apply combined_returnedField_inv in Hf as (i & f0 & j0 & l & Hi & _ & _ & Hl).
    rewrite (aggsOf_Some _ _ _ Hl) in Ha.
    apply elem_of_deref in Ha as (j & Hj & Hja).
    eapply combined_link_rules; [exact Hi|exact Hja|]. left. by exists (j0 :: l).
  - apply combined_returnedAgg_inv in Ha as (j & a0 & i0 & l & Hj & _ & _ & Hl).
    rewrite (fieldsOf_Some _ _ _ Hl) in Hf.
    apply elem_of_deref in Hf as (i & Hi & Hif).
    eapply combined_link_rules; [exact Hif|exact Hj|]. right. by exists (i0 :: l).
Qed.

(** A pair the rules allow is linked, and so both objects are returned. *)
Lemma combined_linked_returned i j f0 a0 :
  fields0 !! i = Some f0 → aggs0 !! j = Some a0 →
  typeRule METRIC_AGG_TYPE f0 a0 → gateOpen rollupFields f0 a0 →
  ∃ f a, s_fields (store r) !! i = Some f
         ∧ f ∈ returnedFields r ∧ field_meta f = field_meta f0
         ∧ a ∈ aggsOf r f ∧ agg_meta a = agg_meta a0.
Proof.
  intros Hf0 Ha0 Hrule Hgate.
  destruct (linkedStore_linked METRIC_AGG_TYPE rollupFields fields0 aggs0
              i j f0 a0 Hf0 Ha0 Hrule Hgate) as [HF _].
  destruct (store_extends_field_l _ _ i f0 combined_extends Hf0)
    as (f & Hf & Hmf & Hgf).
  destruct (store_extends_agg_l _ _ j a0 combined_extends Ha0)
    as (a & Ha & Hma & _).
  eapply Forall_lookup_1 in fields0_fresh; [|exact Hf0].
  unfold fresh in fields0_fresh. rewrite fields0_fresh in Hgf.
  destruct (f_aggs f) as [l|] eqn:Hl; [|done].
  specialize (HF f l Hf Hl).
  exists f, a. split; [done|]. split; [|split; [done|split; [|done]]].
  - rewrite combined_returnedFields, list_elem_of_filter. split.
    + unfold hasAggs. rewrite Hl. destruct l; [by apply elem_of_nil in HF|done].
    + by eapply list_elem_of_lookup_2.
  - rewrite (aggsOf_Some _ _ _ Hl). apply elem_of_deref. by exists j.
Qed.

End Combined.

(** ** The [aggregatable] flag is carried along and never read *)

Lemma forEach_commute {A S T} (g : S → T) (l : list A) (s : S)
    (body : S → A → S) (body' : T → A → T) :
  (∀ s x, g (body s x) = body' (g s) x) →
  g (forEach l s body) = forEach l (g s) body'.
Proof.
  intros Hg. revert s. induction l as [|x l IH]; intros s; [done|].
  by rewrite !forEach_cons, IH, Hg.
Qed.

Lemma filter_refs_fmap {A} (p : A → bool) (g : A → A) (l : list A) :
  (∀ x, p (g x) = p x) → filter_refs p (g <$> l) = filter_refs p l.
Proof.
  intros Hp. unfold filter_refs. rewrite length_fmap.
  apply list_filter_iff. intros i. rewrite list_lookup_fmap.
  destruct (l !! i); simpl; [by rewrite Hp|done].
Qed.

Lemma eraseField_push_agg a f : eraseField (push_agg a f) = push_agg a (eraseField f).
Proof. by destruct f as [? ? ? ? [l|]]. Qed.

Lemma mix_erase rollupFields f a s :
  eraseStore (mix_result rollupFields f a s)
  = mix_result rollupFields f a (eraseStore s).
Proof.
  unfold mix_result, eraseStore. simpl. rewrite list_lookup_fmap.
  destruct (s_fields s !! f) as [field|]; simpl; [|done].
  destruct (s_aggs s !! a) as [aggregation|]; simpl; [|done].
  destruct (_ || _); simpl; [|done].
  f_equal. apply list_fmap_alter, Forall_forall. intros x _.
  apply eraseField_push_agg.
Qed.

Lemma linkAgg_erase METRIC_AGG_TYPE rollupFields tk num s a :
  eraseStore (linkAgg_result METRIC_AGG_TYPE (mix_result rollupFields) tk num s a)
  = linkAgg_result METRIC_AGG_TYPE (mix_result rollupFields) tk num (eraseStore s) a.
Proof.
  unfold linkAgg_result. change (s_aggs (eraseStore s)) with (s_aggs s).
  destruct (s_aggs s !! a) as [aggregation|]; [|done].
  repeat case_bool_decide; try done.
  - rewrite (forEach_commute eraseStore _ _ _ (λ s f, mix_result rollupFields f a s))
      by (intros; apply mix_erase).
    f_equal. apply forEach_commute. intros; apply mix_erase.
  - apply forEach_commute. intros; apply mix_erase.
Qed.

Lemma combine_erase METRIC_AGG_TYPE fields0 aggs0 rollupFields :
  eraseResult (combine_result METRIC_AGG_TYPE fields0 aggs0 rollupFields)
  = combine_result METRIC_AGG_TYPE (eraseField <$> fields0) aggs0 rollupFields.
Proof.
  unfold combine_result, getTextAndKeywordFields, getNumericalFields.
  rewrite !filter_refs_fmap by done.
  set (body := linkAgg_result _ _ _ _).
  set (s := forEach _ _ body).
  assert (eraseStore s
          = forEach (seq 0 (length aggs0))
              {| s_fields := eraseField <$> fields0; s_aggs := aggs0 |} body) as <-.
  { unfold s. apply (forEach_commute eraseStore). intros. apply linkAgg_erase. }
  unfold eraseResult, filterFields, filterAggs. simpl.
  by rewrite filter_refs_fmap.
Qed.

Lemma typeRule_erase METRIC_AGG_TYPE f a :
  typeRule METRIC_AGG_TYPE (eraseField f) a ↔ typeRule METRIC_AGG_TYPE f a.
Proof. done. Qed.

Lemma crossThrows_erase METRIC_AGG_TYPE rollupFields fields0 aggs0 :
  crossThrows METRIC_AGG_TYPE rollupFields (eraseField <$> fields0) aggs0
  ↔ crossThrows METRIC_AGG_TYPE rollupFields fields0 aggs0.
Proof.
  unfold crossThrows. split.
  - intros (Hsize & i & j & f & a & Hf & Ha & Hrule & Hin). split; [done|].
    rewrite list_lookup_fmap in Hf.
    destruct (fields0 !! i) as [f0|] eqn:Hf0; [|done]. injection Hf as <-.
    by exists i, j, f0, a.
  - intros (Hsize & i & j & f & a & Hf & Ha & Hrule & Hin). split; [done|].
    exists i, j, (eraseField f), a. rewrite list_lookup_fmap, Hf. done.
Qed.

(** Throwing or not, the cross-referencing does not read the flag. *)
Lemma combineFieldsAndAggs_erase METRIC_AGG_TYPE fields0 aggs0 rollupFields :
  mapE eraseResult (combineFieldsAndAggs METRIC_AGG_TYPE fields0 aggs0 rollupFields)
  = combineFieldsAndAggs METRIC_AGG_TYPE (eraseField <$> fields0) aggs0 rollupFields.
Proof.
  destruct (combineFieldsAndAggs_cases METRIC_AGG_TYPE rollupFields fields0 aggs0)
    as [[Hc ->]|[Hc ->]];
  destruct (combineFieldsAndAggs_cases METRIC_AGG_TYPE rollupFields
              (eraseField <$> fields0) aggs0) as [[Hc' ->]|[Hc' ->]]; simpl.
  - done.
  - destruct Hc'. by apply crossThrows_erase.
  - destruct Hc. by apply (crossThrows_erase METRIC_AGG_TYPE rollupFields fields0).
  - by rewrite combine_erase.
Qed.

Lemma addField_erase acc e :
  addField (eraseField <$> acc) (eraseEntry e) = eraseField <$> addField acc e.
Proof.
  destruct e as [k fc]. unfold addField, eraseEntry. simpl.
  destruct fc as [|[v d] rest]; simpl; [done|].
  destruct (fc_type d) as [t|]; [|done].
  destruct (bool_decide _); [|done].
  by rewrite fmap_app.
Qed.

Lemma collectFields_erase o :
  collectFields (eraseFieldCaps o) = eraseField <$> collectFields o.
Proof.
  destruct o as [[[report|]]|]; simpl; try done.
  unfold eraseReport.
  change (@nil Field) with (eraseField <$> @nil Field) at 1.
  generalize (@nil Field) as acc.
  induction report as [|e report IH]; intros acc; [done|].
  rewrite fmap_cons, !forEach_cons, addField_erase. apply IH.
Qed.

Lemma fieldsCreated_erase cmp o :
  fieldsCreated cmp (eraseFieldCaps o) = eraseField <$> fieldsCreated cmp o.
Proof.
  unfold fieldsCreated. rewrite collectFields_erase. by apply sort_fmap.
Qed.

(** * The claims *)

Section Claims.

Variable localeCompare : string → string → Z.
Variable METRIC_AGG_TYPE : string.

(** C1, as amended.  In rollup mode, when the rollup lookup returns jobs
    and [getData] resolves, the merge of the jobs has returned a map, and:
    when that map has at least one field name, a field and an aggregation
    are linked in the result (the aggregation is in the list of a returned
    field, or the field in the list of a returned aggregation) only if the
    merged map has an entry for the field's identifier and that entry lists
    the aggregation's DSL name; when that map is empty the gate is open, as
    outside rollup mode: the result is the one [getData] resolves to when
    made without the rollup flag for the rollup's index pattern.  The
    catalog is one whose field lists start empty or absent. *)
Theorem C1_rollup_links_are_permitted w ip cat jobs t r :
  Forall unlinked cat →
  rollupJobs w ip = inr (Some jobs) →
  run w (getData localeCompare METRIC_AGG_TYPE ip true cat) = (t, inr r) →
  ∃ merged,
    combineAllRollupFields jobs = inr merged
    ∧ (0 < size merged →
       ∀ f a, linkedIn r f a →
         ∃ entries, merged !! f_id f = Some entries
                    ∧ ∃ e, e ∈ entries ∧ agg e = a_dslName a)
    ∧ (size merged = 0 →
       ∃ ip', rollupIndexPattern w ip = inr ip'
              ∧ run w (getData localeCompare METRIC_AGG_TYPE ip' false cat)
                = ([EvFieldCaps ip'], inr r)).
Proof.
  intros Hcat Hjobs Hrun.
  apply run_getData_inv in Hrun
    as [(_ & Hnone & _)
       |(rf & ip' & o & Hcaps & -> & [(? & _)|(_ & jobs' & Hjobs' & Hrf & Hip & _)])];
    [congruence|done|].
  rewrite Hjobs in Hjobs'. injection Hjobs' as <-.
  exists rf. split; [done|]. split.
  - intros Hsize f a Hlinked.
    apply combined_linkedIn_rules in Hlinked as [_ [Hempty|Hlisted]];
      [lia| |by apply fieldsCreated_fresh|done].
    unfold listed in Hlisted.
    destruct (rf !! f_id f) as [entries|]; [|done].
    exists entries. split; [done|].
    apply find_truthy in Hlisted as (e & He & Hagg).
    exists e. split; [done|]. by apply bool_decide_unpack in Hagg.
  - intros Hsize. apply map_size_empty_inv in Hsize as ->.
    exists ip'. split; [done|]. by rewrite run_getData, Hcaps.
Qed.

(** C3.  Whenever [getData] resolves, in rollup mode or not, every field
    in the returned field list holds a non-empty list of aggregations and
    every aggregation in the returned aggregation list holds a non-empty
    list of fields. *)
Theorem C3_mutual_filtering w ip isRollup cat t r :
  run w (getData localeCompare METRIC_AGG_TYPE ip isRollup cat) = (t, inr r) →
  (∀ f, f ∈ returnedFields r → ∃ j l, f_aggs f = Some (j :: l))
  ∧ (∀ a, a ∈ returnedAggs r → ∃ i l, a_fields a = Some (i :: l)).
Proof.
  intros Hrun.
  apply run_getData_inv in Hrun
    as [(_ & _ & _ & ->)|(rf & ip' & o & _ & -> & _)].
  - split; intros x Hx; by apply elem_of_nil in Hx.
  - split.
    + intros f Hf.
      apply combined_returnedField_inv in Hf as (_ & _ & j & l & _ & _ & _ & Hl).
      by exists j, l.
    + intros a Ha.
      apply combined_returnedAgg_inv in Ha as (_ & _ & i & l & _ & _ & _ & Hl).
      by exists i, l.
Qed.

(** C4.  With [isRollup] true and a rollup lookup that returns [null],
    [getData] resolves (it does not reject) to exactly
    [{ aggs: [], fields: [] }], and the rollup lookup is the only call it
    makes: field capabilities are not fetched. *)
Theorem C4_no_rollup_jobs_empty_result w ip cat :
  rollupJobs w ip = inr None →
  run w (getData localeCompare METRIC_AGG_TYPE ip true cat)
  = ([EvRollupJobs ip],
     inr {| store := {| s_fields := []; s_aggs := [] |};
            aggs := [];
            fields := [] |}).
Proof.
  intros Hnone. unfold getData.
  cbn [mbind Prog_bind prog_bind run handle event_of]. by rewrite Hnone.
Qed.

(** C6.  Outside rollup mode, for every capability report and every
    catalog (whose field lists start empty or absent), no aggregation in
    the list of a returned field has the DSL name [count], and no
    returned aggregation has it. *)
Theorem C6_count_never_linked w ip cat t r :
  Forall unlinked cat →
  run w (getData localeCompare METRIC_AGG_TYPE ip false cat) = (t, inr r) →
  (∀ f a, f ∈ returnedFields r → a ∈ aggsOf r f →
          a_dslName a ≠ ES_AGGREGATION.COUNT)
  ∧ (∀ a, a ∈ returnedAggs r → a_dslName a ≠ ES_AGGREGATION.COUNT).
Proof.
  intros Hcat Hrun.
  apply run_getData_inv in Hrun
    as [(? & _)|(rf & ip' & o & _ & -> & _)]; [done|].
  split.
  - intros f a Hf Ha.
    assert (linkedIn (combine_result METRIC_AGG_TYPE
                        (fieldsCreated localeCompare o) cat rf) f a) as Hlinked
      by (by left).
    apply combined_linkedIn_rules in Hlinked as [(_ & Hcount & _) _];
      [done|apply fieldsCreated_fresh|done].
  - intros a Ha.
    destruct (combined_returnedAgg_inv _ _ _ _ _ Ha)
      as (j & a0 & i & l & Hj & _ & _ & Hl).
    assert (i ∈ i :: l) as Hi by left.
    destruct (combined_links_sat METRIC_AGG_TYPE rf _ cat
                (fieldsCreated_fresh localeCompare o) Hcat) as [_ HA].
    destruct (HA j a (i :: l) i Hj Hl Hi) as (f0 & a0' & _ & Ha0' & (_ & Hcount & _) & _).
    destruct (store_extends_agg _ _ _ _ (combined_extends _ _ _ _) Hj)
      as (a0'' & Ha0'' & Hm & _).
    simpl in Ha0''. rewrite Ha0' in Ha0''. injection Ha0'' as <-.
    injection Hm as _ Hdsl _. congruence.
Qed.

(** C7.  Outside rollup mode, a returned field of type [keyword] or
    [text] is linked to cardinality whenever the catalog has it as a
    metric aggregation, and every aggregation in its list is the metric
    aggregation cardinality; the fields in the list of any returned
    aggregation other than cardinality are of type [double], [float] or
    [long].  The catalog is one whose field lists start empty or
    absent. *)
Theorem C7_text_and_keyword_only_cardinality w ip cat t r :
  Forall unlinked cat →
  run w (getData localeCompare METRIC_AGG_TYPE ip false cat) = (t, inr r) →
  (∀ f, f ∈ returnedFields r →
     f_type f = ES_FIELD_TYPES.KEYWORD ∨ f_type f = ES_FIELD_TYPES.TEXT →
     (∀ c, c ∈ cat → a_type c = METRIC_AGG_TYPE →
           a_dslName c = ES_AGGREGATION.CARDINALITY →
           ∃ a, a ∈ aggsOf r f ∧ agg_meta a = agg_meta c)
     ∧ (∀ a, a ∈ aggsOf r f →
             a_type a = METRIC_AGG_TYPE
             ∧ a_dslName a = ES_AGGREGATION.CARDINALITY))
  ∧ (∀ a g, a ∈ returnedAggs r →
            a_dslName a ≠ ES_AGGREGATION.CARDINALITY →
            g ∈ fieldsOf r a →
            f_type g = ES_FIELD_TYPES.DOUBLE ∨ f_type g = ES_FIELD_TYPES.FLOAT
            ∨ f_type g = ES_FIELD_TYPES.LONG).
Proof.
  intros Hcat Hrun.
  apply run_getData_inv in Hrun
    as [(? & _)|(rf & ip' & o & _ & -> & [(_ & -> & _)|(? & _)])]; [done| |done].
  pose proof (fieldsCreated_fresh localeCompare o) as Hfresh.
  split.
  - intros f Hf Htype. apply text_keyword_types in Htype. split.
    + intros c Hc Hmetric Hcard.
      destruct (combined_returnedField_inv _ _ _ _ _ Hf)
        as (i & f0 & _ & _ & Hi & Hf0 & Hm & _).
      apply list_elem_of_lookup in Hc as [j Hj].
      destruct (combined_linked_returned METRIC_AGG_TYPE ∅ _ cat Hfresh
                  i j f0 c Hf0 Hj) as (f' & a & Hi' & _ & _ & Ha & Hma).
      * split; [done|]. split; [by rewrite Hcard|]. right. split; [done|].
        unfold isTextOrKeyword in *. injection Hm as _ _ -> _. done.
      * left. apply map_size_empty.
      * rewrite Hi in Hi'. injection Hi' as <-. by exists a.
    + intros a Ha.
      assert (linkedIn (combine_result METRIC_AGG_TYPE
                          (fieldsCreated localeCompare o) cat ∅) f a) as Hlinked
        by (by left).
      apply combined_linkedIn_rules in Hlinked as [(Hmetric & _ & Hkind) _];
        [|done|done].
      split; [done|]. destruct Hkind as [Hnum|[Hcard _]]; [|done].
      by apply text_keyword_not_numerical in Htype.
  - intros a g Ha Hcard Hg.
    assert (linkedIn (combine_result METRIC_AGG_TYPE
                        (fieldsCreated localeCompare o) cat ∅) g a) as Hlinked
      by (by right).
    apply combined_linkedIn_rules in Hlinked as [(_ & _ & Hkind) _];
      [|done|done].
    destruct Hkind as [Hnum|[? _]]; [|done]. by apply numerical_types.
Qed.

(** C8.  Whenever [getData] resolves, the identifiers of the returned
    fields, in the order of the returned list, are sorted ascending under
    [localeCompare]: each compares less than or equal to every later
    one.  [localeCompare] is a comparator that orders. *)
Theorem C8_returned_fields_sorted w ip isRollup cat t r :
  comparator_total localeCompare →
  comparator_trans localeCompare →
  run w (getData localeCompare METRIC_AGG_TYPE ip isRollup cat) = (t, inr r) →
  StronglySorted (λ a b, (localeCompare a b ≤ 0)%Z) (f_id <$> returnedFields r).
Proof.
  intros Htot Htrans Hrun.
  apply run_getData_inv in Hrun
    as [(_ & _ & _ & ->)|(rf & ip' & o & _ & -> & _)]; [constructor|].
  rewrite combined_returnedFields.
  eapply StronglySorted_sublist.
  { apply fmap_sublist, sublist_filter. }
  rewrite <- (store_extends_ids _ _ (combined_extends _ _ _ _)). simpl.
  unfold fieldsCreated.
  apply (StronglySorted_fmap f_id
           (λ a b, (localeCompare (f_id a) (f_id b) ≤ 0)%Z)); [done|].
  apply (sort_sorted (λ a b, localeCompare (f_id a) (f_id b))).
  - intros a b. apply Htot.
  - intros a b c. apply Htrans.
Qed.

(** C9.  When [_field_caps] answers with a report (an object: its field
    names are pairwise distinct), [createFields] resolves, and a field
    name of the report has a [Field] in the result exactly when the
    report has at least one type variant for it and the type of the first
    variant is one of the eleven supported types; every [Field] of the
    result comes from a field name of the report and carries the type and
    the [aggregatable] flag of that name's first variant.  Names with no
    variant, with no type or with another type are left out, and nothing
    is raised for them. *)
Theorem C9_fields_from_first_variant w ip
    (report : list (string * list (string * FieldCapability))) :
  fieldCaps w ip = inr (Some {| fc_fields := Some report |}) →
  NoDup report.*1 →
  ∃ fields,
    run w (createFields localeCompare ip) = ([EvFieldCaps ip], inr fields)
    ∧ (∀ k variants, (k, variants) ∈ report →
         (∃ f, f ∈ fields ∧ f_id f = k)
         ↔ (∃ v d rest t,
              variants = (v, d) :: rest ∧ fc_type d = Some t
              ∧ t ∈ ["date"; "keyword"; "text"; "double"; "integer"; "float";
                     "long"; "byte"; "half_float"; "scaled_float"; "short"]))
    ∧ (∀ f, f ∈ fields →
         ∃ variants v d rest,
           (f_id f, variants) ∈ report ∧ variants = (v, d) :: rest
           ∧ fc_type d = Some (f_type f)
           ∧ f_aggregatable f = fc_aggregatable d).
Proof.
  intros Hcaps Hnodup. eexists. split.
  { rewrite run_createFields, Hcaps. reflexivity. }
  assert (∀ f, f ∈ fieldsCreated localeCompare (Some {| fc_fields := Some report |})
               ↔ ∃ k fc, (k, fc) ∈ report ∧ f ∈ addField [] (k, fc)) as Hmem.
  { intros f. unfold fieldsCreated. rewrite sort_elem_of. simpl.
    rewrite addField_loop_elem_of. split; [|by right].
    intros [?%elem_of_nil|?]; done. }
  split.
  - intros k variants Hk. split.
    + intros (f & Hf & Hid). apply Hmem in Hf as (k' & fc & Hk' & Hf).
      apply addField_elem_of in Hf as (v & d & rest & ty & -> & Hty & Hin & ->).
      simpl in Hid. subst k'.
      rewrite (NoDup_keys_unique _ _ _ _ Hnodup Hk Hk').
      by exists v, d, rest, ty.
    + intros (v & d & rest & ty & -> & Hty & Hin).
      eexists. split; [|shelve].
      apply Hmem. exists k, ((v, d) :: rest). split; [done|].
      apply addField_elem_of. by exists v, d, rest, ty.
      Unshelve. done.
  - intros f Hf. apply Hmem in Hf as (k & fc & Hk & Hf).
    apply addField_elem_of in Hf as (v & d & rest & ty & -> & Hty & Hin & ->).
    by exists ((v, d) :: rest), v, d, rest.
Qed.

(** C10.  Two invocations that differ only in the [aggregatable] flags
    that [_field_caps] reports (same rollup answers, same field names and
    type variants in the same order) make the same calls and resolve or
    reject alike; their results have the same returned references, the
    same aggregations with the same field lists, and the same fields with
    the same identifiers, types and aggregation lists: they differ at
    most in the copied flags.  In particular, outside rollup mode, a
    field whose first variant is of type [double], [float] or [long] and
    not aggregatable is returned, with the flag as reported, and linked
    to every metric aggregation of the catalog other than [count]. *)
Theorem C10_aggregatable_flag_not_consulted w1 w2 ip isRollup cat :
  (∀ ix, rollupJobs w1 ix = rollupJobs w2 ix) →
  (∀ ix, rollupIndexPattern w1 ix = rollupIndexPattern w2 ix) →
  (∀ ix, eraseAnswer (fieldCaps w1 ix) = eraseAnswer (fieldCaps w2 ix)) →
  eraseOutcome (run w1 (getData localeCompare METRIC_AGG_TYPE ip isRollup cat))
  = eraseOutcome (run w2 (getData localeCompare METRIC_AGG_TYPE ip isRollup cat))
  ∧ ∀ (report : list (string * list (string * FieldCapability)))
      k v d rest ty c t r,
      fieldCaps w1 ip = inr (Some {| fc_fields := Some report |}) →
      (k, (v, d) :: rest) ∈ report →
      fc_type d = Some ty →
      ty ∈ [ES_FIELD_TYPES.DOUBLE; ES_FIELD_TYPES.FLOAT; ES_FIELD_TYPES.LONG] →
      fc_aggregatable d = false →
      c ∈ cat → a_type c = METRIC_AGG_TYPE →
      a_dslName c ≠ ES_AGGREGATION.COUNT →
      run w1 (getData localeCompare METRIC_AGG_TYPE ip false cat) = (t, inr r) →
      ∃ f a, f ∈ returnedFields r ∧ f_id f = k ∧ f_type f = ty
             ∧ f_aggregatable f = false
             ∧ a ∈ aggsOf r f ∧ agg_meta a = agg_meta c.
Proof.
  intros Hjobs Hpattern Hcaps. split.
  - rewrite !run_getData. destruct isRollup.
    + rewrite Hjobs. destruct (rollupJobs w2 ip) as [e|[jobs|]]; [done| |done].
      destruct (combineAllRollupFields jobs) as [e|rf]; [done|].
      rewrite Hpattern. destruct (rollupIndexPattern w2 ip) as [e|ip']; [done|].
      specialize (Hcaps ip').
      destruct (fieldCaps w1 ip') as [e1|o1], (fieldCaps w2 ip') as [e2|o2];
        simpl in Hcaps; try done; [congruence|].
      injection Hcaps as Ho. unfold eraseOutcome. cbn [fst snd]. f_equal.
      change (mapE eraseResult
                (combineFieldsAndAggs METRIC_AGG_TYPE
                   (fieldsCreated localeCompare o1) cat rf)
              = mapE eraseResult
                  (combineFieldsAndAggs METRIC_AGG_TYPE
                     (fieldsCreated localeCompare o2) cat rf)).
      by rewrite !combineFieldsAndAggs_erase, <- !fieldsCreated_erase, Ho.
    + specialize (Hcaps ip).
      destruct (fieldCaps w1 ip) as [e1|o1], (fieldCaps w2 ip) as [e2|o2];
        simpl in Hcaps; try done; [congruence|].
      injection Hcaps as Ho. unfold eraseOutcome. simpl.
      by rewrite !combine_erase, <- !fieldsCreated_erase, Ho.
  - intros report k v d rest ty c t r Hrep Hk Hty Hnum Hflag Hc Hmetric Hcount Hrun.
    rewrite run_getData, Hrep in Hrun. injection Hrun as <- <-.
    set (f0 := {| f_id := k; f_name := k; f_type := ty;
                  f_aggregatable := false; f_aggs := Some [] |}).
    assert (f0 ∈ fieldsCreated localeCompare (Some {| fc_fields := Some report |}))
      as Hf0.
    { unfold fieldsCreated. rewrite sort_elem_of. simpl.
      apply addField_loop_elem_of. right. exists k, ((v, d) :: rest).
      split; [done|]. apply addField_elem_of. exists v, d, rest, ty.
      split; [done|]. split; [done|]. split; [|by rewrite Hflag].
      by apply numeric_supported. }
    apply list_elem_of_lookup in Hf0 as [i Hi].
    apply list_elem_of_lookup in Hc as [j Hj].
    destruct (combined_linked_returned METRIC_AGG_TYPE ∅ _ cat
                (fieldsCreated_fresh localeCompare _) i j f0 c Hi Hj)
      as (f & a & _ & Hf & Hm & Ha & Hma).
    + split; [done|]. split; [done|]. left. apply numerical_types. simpl.
      rewrite !elem_of_cons, elem_of_nil in Hnum. tauto.
    + left. apply map_size_empty.
    + injection Hm as Hid _ Htype Hagg. by exists f, a.
Qed.

End Claims.

(** C2, at the input where the code departs from it.  Two jobs list the
    field [age], the first with [avg] and the second with [max]: the merged
    entry of [age] is the first job's, and [max] is not in it. *)
Theorem C2_later_job_aggregation_not_merged :
  ∃ merged,
    combineAllRollupFields [Sample.jobAvg; Sample.jobMax] = inr merged
    ∧ merged !! "age" = Some [ {| agg := "avg" |} ].
Proof.
  destruct (combineAllRollupFields_returns [Sample.jobAvg; Sample.jobMax])
    as [merged Hmerged]; [done|].
  exists merged. split; [done|].
  by rewrite (combineAllRollupFields_lookup _ _ _ Hmerged).
Qed.

(** C5, as amended.  For the report
    [{ age: long, name: keyword }] (both aggregatable), outside rollup
    mode, with the catalog [avg], [cardinality], [count] of metric
    aggregations in that order, the result is the fields
    [age (avg, cardinality)], [name (cardinality)] and the aggregations
    [avg (age)], [cardinality (name, age)], without [count]: cardinality
    lists the keyword field before the numeric one. *)
Theorem C5_scenario_result (localeCompare : string → string → Z) w ip :
  (localeCompare "age" "name" ≤ 0)%Z →
  fieldCaps w ip = inr (Some {| fc_fields := Some Sample.report |}) →
  ∃ r,
    run w (getData localeCompare Sample.METRIC ip false Sample.catalog)
    = ([EvFieldCaps ip], inr r)
    ∧ fieldsView r = [("age", ["avg"; "cardinality"]); ("name", ["cardinality"])]
    ∧ aggsView r = [("avg", ["age"]); ("cardinality", ["name"; "age"])].
Proof.
  intros Hcmp Hcaps. rewrite run_getData, Hcaps. eexists. split; [reflexivity|].
  assert (fieldsCreated localeCompare (Some {| fc_fields := Some Sample.report |})
          = [ {| f_id := "age"; f_name := "age"; f_type := "long";
                 f_aggregatable := true; f_aggs := Some [] |};
              {| f_id := "name"; f_name := "name"; f_type := "keyword";
                 f_aggregatable := true; f_aggs := Some [] |} ]) as ->.
  { unfold fieldsCreated.
    assert (collectFields (Some {| fc_fields := Some Sample.report |})
            = [ {| f_id := "age"; f_name := "age"; f_type := "long";
                   f_aggregatable := true; f_aggs := Some [] |};
                {| f_id := "name"; f_name := "name"; f_type := "keyword";
                   f_aggregatable := true; f_aggs := Some [] |} ]) as ->
      by (vm_compute; reflexivity).
    cbn [sort foldr sort_insert f_id].
    destruct (Z.leb_spec (localeCompare "age" "name") 0); [done|lia]. }
  split; vm_compute; reflexivity.
Qed.

(** ** The sample comparator orders *)

Lemma codeUnitCompare_le a b :
  (Sample.codeUnitCompare a b ≤ 0)%Z ↔ String.le a b.
Proof.
  unfold Sample.codeUnitCompare, String.le.
  destruct (String.leb a b); [destruct (String.leb b a)|]; simpl; split;
    first [lia | done].
Qed.

Lemma codeUnitCompare_total : comparator_total Sample.codeUnitCompare.
Proof.
  intros a b. rewrite !codeUnitCompare_le. apply String.le_total.
Qed.

Lemma codeUnitCompare_trans : comparator_trans Sample.codeUnitCompare.
Proof.
  intros a b c. rewrite !codeUnitCompare_le. intros. by etrans.
Qed.


(** ** The claims at sample inputs *)

(** C1 as first stated fails when the merged map is empty.  In rollup
    mode, with one job that rolls up no field, [age] and [avg] are linked in
    the result although the merged map has no entry for [age]. *)
Lemma C1_empty_merged_map_counterexample :
  ∃ t r merged,
    rollupJobs (Sample.world (Some [Sample.jobEmpty]) Sample.report) "idx"
    = inr (Some [Sample.jobEmpty])
    ∧ combineAllRollupFields [Sample.jobEmpty] = inr merged
    ∧ run (Sample.world (Some [Sample.jobEmpty]) Sample.report)
          (getData Sample.codeUnitCompare Sample.METRIC "idx" true Sample.catalog)
      = (t, inr r)
    ∧ ¬ (∀ f a, linkedIn r f a →
           ∃ entries,
             merged !! f_id f = Some entries
             ∧ ∃ e, e ∈ entries ∧ agg e = a_dslName a).
Proof.
  eexists _, _, _. split; [reflexivity|]. split; [reflexivity|].
  split; [vm_compute; reflexivity|].
  intros Hclaim.
  destruct (Hclaim
              {| f_id := "age"; f_name := "age"; f_type := "long";
                 f_aggregatable := true; f_aggs := Some [0; 1] |}
              {| a_id := "mean"; a_dslName := "avg"; a_type := Sample.METRIC;
                 a_fields := Some [0] |})
    as (entries & Hentries & _).
  - left. split.
    + assert (∀ r x l, returnedFields r = l → x ∈ l → x ∈ returnedFields r)
        as Hin by (by intros ? ? ? ->).
      eapply Hin; [vm_compute; reflexivity|]. by left.
    + assert (∀ r f x l, aggsOf r f = l → x ∈ l → x ∈ aggsOf r f)
        as Hin by (by intros ? ? ? ? ->).
      eapply Hin; [vm_compute; reflexivity|]. by left.
  - by rewrite lookup_empty in Hentries.
Qed.

(** C5 as first stated fails on the order of the fields of cardinality:
    the run of the scenario does not give [age] before [name] there. *)
Lemma C5_cardinality_fields_order_counterexample :
  ¬ ∃ t r,
      run (Sample.world None Sample.report)
          (getData Sample.codeUnitCompare Sample.METRIC "idx" false Sample.catalog)
      = (t, inr r)
      ∧ fieldsView r = [("age", ["avg"; "cardinality"]); ("name", ["cardinality"])]
      ∧ aggsView r = [("avg", ["age"]); ("cardinality", ["age"; "name"])].
Proof.
  intros (t & r & Hrun & _ & Hview).
  vm_compute in Hrun. injection Hrun as <- <-.
  vm_compute in Hview. discriminate.
Qed.

(** C1 as amended, at a rollup job that lists [avg] for [age]. *)
Lemma C1_witness :
  ∃ merged,
    combineAllRollupFields [Sample.jobAvg] = inr merged
    ∧ (0 < size merged →
       ∀ f a,
         linkedIn
           (resolved (run (Sample.world (Some [Sample.jobAvg]) Sample.report)
                          (getData Sample.codeUnitCompare Sample.METRIC "idx" true
                             Sample.catalog))) f a →
         ∃ entries, merged !! f_id f = Some entries
                    ∧ ∃ e, e ∈ entries ∧ agg e = a_dslName a)
    ∧ (size merged = 0 →
       ∃ ip',
         rollupIndexPattern (Sample.world (Some [Sample.jobAvg]) Sample.report) "idx"
         = inr ip'
         ∧ run (Sample.world (Some [Sample.jobAvg]) Sample.report)
               (getData Sample.codeUnitCompare Sample.METRIC ip' false Sample.catalog)
           = ([EvFieldCaps ip'],
              inr (resolved
                     (run (Sample.world (Some [Sample.jobAvg]) Sample.report)
                          (getData Sample.codeUnitCompare Sample.METRIC "idx" true
                             Sample.catalog))))).
Proof.
  apply (C1_rollup_links_are_permitted Sample.codeUnitCompare Sample.METRIC
           (Sample.world (Some [Sample.jobAvg]) Sample.report) "idx"
           Sample.catalog [Sample.jobAvg]
           [EvRollupJobs "idx"; EvIndexPattern "idx"; EvFieldCaps "rollup-backing-*"]).
  - repeat constructor.
  - reflexivity.
  - vm_compute. reflexivity.
Defined.

(** C3 at a report where three of five field names are left out. *)
Lemma C3_witness :
  (∀ f, f ∈ returnedFields
              (resolved (run (Sample.world None Sample.reportMixed)
                             (getData Sample.codeUnitCompare Sample.METRIC "idx"
                                false Sample.catalog))) →
        ∃ j l, f_aggs f = Some (j :: l))
  ∧ (∀ a, a ∈ returnedAggs
                (resolved (run (Sample.world None Sample.reportMixed)
                               (getData Sample.codeUnitCompare Sample.METRIC "idx"
                                  false Sample.catalog))) →
          ∃ i l, a_fields a = Some (i :: l)).
Proof.
  apply (C3_mutual_filtering Sample.codeUnitCompare Sample.METRIC
           (Sample.world None Sample.reportMixed) "idx" false Sample.catalog
           [EvFieldCaps "idx"]).
  vm_compute. reflexivity.
Defined.

(** C4 at a world whose rollup lookup answers [null]. *)
Lemma C4_witness :
  run (Sample.world None Sample.report)
      (getData Sample.codeUnitCompare Sample.METRIC "idx" true Sample.catalog)
  = ([EvRollupJobs "idx"],
     inr {| store := {| s_fields := []; s_aggs := [] |}; aggs := []; fields := [] |}).
Proof.
  apply (C4_no_rollup_jobs_empty_result Sample.codeUnitCompare Sample.METRIC
           (Sample.world None Sample.report) "idx" Sample.catalog).
  reflexivity.
Defined.

(** C5 as amended, under comparison by code units. *)
Lemma C5_witness :
  ∃ r,
    run (Sample.world None Sample.report)
        (getData Sample.codeUnitCompare Sample.METRIC "idx" false Sample.catalog)
    = ([EvFieldCaps "idx"], inr r)
    ∧ fieldsView r = [("age", ["avg"; "cardinality"]); ("name", ["cardinality"])]
    ∧ aggsView r = [("avg", ["age"]); ("cardinality", ["name"; "age"])].
Proof.
  apply (C5_scenario_result Sample.codeUnitCompare
           (Sample.world None Sample.report) "idx").
  - vm_compute. discriminate.
  - reflexivity.
Defined.

(** C6 at the sample report and catalog, which has [count]. *)
Lemma C6_witness :
  (∀ f a,
     f ∈ returnedFields
           (resolved (run (Sample.world None Sample.report)
                          (getData Sample.codeUnitCompare Sample.METRIC "idx" false
                             Sample.catalog))) →
     a ∈ aggsOf
           (resolved (run (Sample.world None Sample.report)
                          (getData Sample.codeUnitCompare Sample.METRIC "idx" false
                             Sample.catalog))) f →
     a_dslName a ≠ ES_AGGREGATION.COUNT)
  ∧ (∀ a,
       a ∈ returnedAggs
             (resolved (run (Sample.world None Sample.report)
                            (getData Sample.codeUnitCompare Sample.METRIC "idx" false
                               Sample.catalog))) →
       a_dslName a ≠ ES_AGGREGATION.COUNT).
Proof.
  apply (C6_count_never_linked Sample.codeUnitCompare Sample.METRIC
           (Sample.world None Sample.report) "idx" Sample.catalog
           [EvFieldCaps "idx"]).
  - repeat constructor.
  - vm_compute. reflexivity.
Defined.

(** C7 at the sample report, where [name] is a keyword field. *)
Lemma C7_witness :
  (∀ f,
     f ∈ returnedFields
           (resolved (run (Sample.world None Sample.report)
                          (getData Sample.codeUnitCompare Sample.METRIC "idx" false
                             Sample.catalog))) →
     f_type f = ES_FIELD_TYPES.KEYWORD ∨ f_type f = ES_FIELD_TYPES.TEXT →
     (∀ c, c ∈ Sample.catalog → a_type c = Sample.METRIC →
           a_dslName c = ES_AGGREGATION.CARDINALITY →
           ∃ a, a ∈ aggsOf
                      (resolved (run (Sample.world None Sample.report)
                                     (getData Sample.codeUnitCompare Sample.METRIC
                                        "idx" false Sample.catalog))) f
                ∧ agg_meta a = agg_meta c)
     ∧ (∀ a, a ∈ aggsOf
                   (resolved (run (Sample.world None Sample.report)
                                  (getData Sample.codeUnitCompare Sample.METRIC
                                     "idx" false Sample.catalog))) f →
             a_type a = Sample.METRIC
             ∧ a_dslName a = ES_AGGREGATION.CARDINALITY))
  ∧ (∀ a g,
       a ∈ returnedAggs
             (resolved (run (Sample.world None Sample.report)
                            (getData Sample.codeUnitCompare Sample.METRIC "idx" false
                               Sample.catalog))) →
       a_dslName a ≠ ES_AGGREGATION.CARDINALITY →
       g ∈ fieldsOf
             (resolved (run (Sample.world None Sample.report)
                            (getData Sample.codeUnitCompare Sample.METRIC "idx" false
                               Sample.catalog))) a →
       f_type g = ES_FIELD_TYPES.DOUBLE ∨ f_type g = ES_FIELD_TYPES.FLOAT
       ∨ f_type g = ES_FIELD_TYPES.LONG).
Proof.
  apply (C7_text_and_keyword_only_cardinality Sample.codeUnitCompare Sample.METRIC
           (Sample.world None Sample.report) "idx" Sample.catalog
           [EvFieldCaps "idx"]).
  - repeat constructor.
  - vm_compute. reflexivity.
Defined.

(** C8 under comparison by code units, at a report given out of order. *)
Lemma C8_witness :
  StronglySorted (λ a b, (Sample.codeUnitCompare a b ≤ 0)%Z)
    (f_id <$> returnedFields
                (resolved (run (Sample.world None Sample.reportMixed)
                               (getData Sample.codeUnitCompare Sample.METRIC "idx"
                                  false Sample.catalog)))).
Proof.
  apply (C8_returned_fields_sorted Sample.codeUnitCompare Sample.METRIC
           (Sample.world None Sample.reportMixed) "idx" false Sample.catalog
           [EvFieldCaps "idx"]).
  - exact codeUnitCompare_total.
  - exact codeUnitCompare_trans.
  - vm_compute. reflexivity.
Defined.

(** C9 at a report with a name without variants, one of an unsupported
    type, one without a type and one with two variants. *)
Lemma C9_witness :
  ∃ fields,
    run (Sample.world None Sample.reportMixed)
        (createFields Sample.codeUnitCompare "idx")
    = ([EvFieldCaps "idx"], inr fields)
    ∧ (∀ k variants, (k, variants) ∈ Sample.reportMixed →
         (∃ f, f ∈ fields ∧ f_id f = k)
         ↔ (∃ v d rest t,
              variants = (v, d) :: rest ∧ fc_type d = Some t
              ∧ t ∈ ["date"; "keyword"; "text"; "double"; "integer"; "float";
                     "long"; "byte"; "half_float"; "scaled_float"; "short"]))
    ∧ (∀ f, f ∈ fields →
         ∃ variants v d rest,
           (f_id f, variants) ∈ Sample.reportMixed ∧ variants = (v, d) :: rest
           ∧ fc_type d = Some (f_type f)
           ∧ f_aggregatable f = fc_aggregatable d).
Proof.
  apply (C9_fields_from_first_variant Sample.codeUnitCompare
           (Sample.world None Sample.reportMixed) "idx" Sample.reportMixed).
  - reflexivity.
  - apply (bool_decide_unpack _). vm_compute. exact I.
Defined.

(** C10 at the sample report and the same report with [age] not
    aggregatable. *)
Lemma C10_witness :
  eraseOutcome
    (run (Sample.world None Sample.report)
         (getData Sample.codeUnitCompare Sample.METRIC "idx" false Sample.catalog))
  = eraseOutcome
      (run (Sample.world None Sample.reportNotAggregatable)
           (getData Sample.codeUnitCompare Sample.METRIC "idx" false Sample.catalog))
  ∧ ∀ (report : list (string * list (string * FieldCapability)))
      k v d rest ty c t r,
      fieldCaps (Sample.world None Sample.report) "idx"
      = inr (Some {| fc_fields := Some report |}) →
      (k, (v, d) :: rest) ∈ report →
      fc_type d = Some ty →
      ty ∈ [ES_FIELD_TYPES.DOUBLE; ES_FIELD_TYPES.FLOAT; ES_FIELD_TYPES.LONG] →
      fc_aggregatable d = false →
      c ∈ Sample.catalog → a_type c = Sample.METRIC →
      a_dslName c ≠ ES_AGGREGATION.COUNT →
      run (Sample.world None Sample.report)
          (getData Sample.codeUnitCompare Sample.METRIC "idx" false Sample.catalog)
      = (t, inr r) →
      ∃ f a, f ∈ returnedFields r ∧ f_id f = k ∧ f_type f = ty
             ∧ f_aggregatable f = false
             ∧ a ∈ aggsOf r f ∧ agg_meta a = agg_meta c.
Proof.
  apply (C10_aggregatable_flag_not_consulted Sample.codeUnitCompare Sample.METRIC
           (Sample.world None Sample.report)
           (Sample.world None Sample.reportNotAggregatable)
           "idx" false Sample.catalog).
  - intros ix. reflexivity.
  - intros ix. reflexivity.
  - intros ix. reflexivity.
Defined.

(** * Further properties *)

(** ** The rollup merge, job by job *)

Lemma entryOf_None {A} k (entries : list (string * A)) :
  entryOf k entries = None ↔ k ∉ entries.*1.
Proof.
  induction entries as [|[k' v] entries IH]; csimpl.
  - split; [intros _; apply not_elem_of_nil|done].
  - rewrite not_elem_of_cons. destruct (decide (k' = k)) as [->|Hne].
    + split; [done|]. by intros [? _].
    + rewrite IH. split; [by intros ?; split|by intros [_ ?]].
Qed.

Lemma entryOf_Some {A} k v (entries : list (string * A)) :
  NoDup entries.*1 → (k, v) ∈ entries → entryOf k entries = Some v.
Proof.
  induction entries as [|[k' v'] entries IH]; csimpl; intros Hnd Hin.
  - by apply elem_of_nil in Hin.
  - apply NoDup_cons in Hnd as [Hk' Hnd].
    apply elem_of_cons in Hin as [[= -> ->]|Hin].
    + by rewrite decide_True.
    + rewrite decide_False; [by apply IH|].
      intros ->. apply Hk'. apply list_elem_of_fmap. by exists (k, v).
Qed.

Lemma firstEntry_app k (l1 l2 : list RollupJob) :
  firstEntry k (l1 ++ l2)
  = match firstEntry k l1 with
    | Some v => Some v
    | None => firstEntry k l2
    end.
Proof.
  induction l1 as [|conf l1 IH]; simpl; [done|].
  by destruct (entryOf k (job_fields conf)).
Qed.

Lemma firstEntry_None k (jobs : list RollupJob) :
  firstEntry k jobs = None ↔ Forall (λ conf, k ∉ jobKeys conf) jobs.
Proof.
  induction jobs as [|conf jobs IH]; simpl.
  - split; [by constructor|done].
  - rewrite Forall_cons, <- IH. unfold jobKeys. rewrite <- entryOf_None.
    destruct (entryOf k (job_fields conf)); [|tauto].
    split; [done|]. by intros [? _].
Qed.

Lemma firstEntry_is_Some k (jobs : list RollupJob) :
  is_Some (firstEntry k jobs) ↔ ∃ conf, conf ∈ jobs ∧ k ∈ jobKeys conf.
Proof.
  induction jobs as [|conf jobs IH]; simpl.
  - split; [by intros [? ?]|]. intros (c & Hc & _). by apply elem_of_nil in Hc.
  - destruct (entryOf k (job_fields conf)) as [v|] eqn:Hentry.
    + split; [|by eexists]. intros _. exists conf. split; [by left|].
      destruct (decide (k ∈ jobKeys conf)) as [|Hnot]; [done|].
      apply entryOf_None in Hnot. congruence.
    + rewrite IH. apply entryOf_None in Hentry. split.
      * intros (c & Hc & Hk). exists c. split; [by right|done].
      * intros (c & [->|Hc]%elem_of_cons & Hk); [done|]. by exists c.
Qed.

Lemma throwingEntry_spec (e : string * list RollupAgg) :
  throwingEntry e = true ↔ e.1 ∈ inheritedMembers ∧ e.2 ≠ [].
Proof.
  unfold throwingEntry. rewrite andb_true_iff, bool_decide_eq_true.
  destruct e.2; split; intros [? ?]; done.
Qed.

(** The merge throws when a job lists an aggregation under the name of an
    inherited member. *)
Lemma mergeThrows_spec (jobs : list RollupJob) :
  mergeThrows jobs = true
  ↔ ∃ conf e, conf ∈ jobs ∧ e ∈ job_fields conf
              ∧ e.1 ∈ inheritedMembers ∧ e.2 ≠ [].
Proof.
  unfold mergeThrows. rewrite existsb_exists. split.
  - intros (conf & Hconf & He). apply existsb_exists in He as (e & He & Ht).
    apply throwingEntry_spec in Ht. exists conf, e.
    split; [by apply list_elem_of_In|]. split; [by apply list_elem_of_In|done].
  - intros (conf & e & Hconf & He & Ht). exists conf.
    split; [by apply list_elem_of_In|].
    apply existsb_exists. exists e. split; [by apply list_elem_of_In|].
    by apply throwingEntry_spec.
Qed.

Lemma mergeThrows_app (jobs1 jobs2 : list RollupJob) :
  mergeThrows (jobs1 ++ jobs2) = mergeThrows jobs1 || mergeThrows jobs2.
Proof. apply existsb_app. Qed.

(** X1.  When no job lists an aggregation under the name of an inherited
    member, the merge returns a map, and its entry for a field name that is
    not such a name is the entry of the first job that lists it, whatever
    the later jobs list for it. *)
Theorem X1_merge_first_job_wins (before after : list RollupJob) conf k v :
  mergeThrows (before ++ conf :: after) = false →
  k ∉ inheritedMembers →
  Forall (λ c, k ∉ jobKeys c) before →
  NoDup (jobKeys conf) →
  (k, v) ∈ job_fields conf →
  ∃ merged,
    combineAllRollupFields (before ++ conf :: after) = inr merged
    ∧ merged !! k = Some v.
Proof.
  intros Hno Hk Hbefore Hnd Hin.
  destruct (combineAllRollupFields_returns _ Hno) as [merged Hmerged].
  exists merged. split; [done|].
  rewrite (combineAllRollupFields_lookup _ _ _ Hmerged).
  rewrite bool_decide_eq_false_2 by done. rewrite firstEntry_app.
  apply firstEntry_None in Hbefore as ->. simpl.
  by rewrite (entryOf_Some k v (job_fields conf) Hnd Hin).
Qed.

(** X2.  When no job lists an aggregation under the name of an inherited
    member, the merge returns a map, which has an entry for a field name
    exactly when some job lists that name and it is not the name of an
    inherited member. *)
Theorem X2_merge_keys (jobs : list RollupJob) :
  mergeThrows jobs = false →
  ∃ merged,
    combineAllRollupFields jobs = inr merged
    ∧ ∀ k, is_Some (merged !! k)
           ↔ (k ∉ inheritedMembers) ∧ ∃ conf, conf ∈ jobs ∧ k ∈ jobKeys conf.
Proof.
  intros Hno. destruct (combineAllRollupFields_returns _ Hno) as [merged Hmerged].
  exists merged. split; [done|]. intros k.
  rewrite (combineAllRollupFields_lookup _ _ _ Hmerged).
  case_bool_decide as Hk.
  - split; [by intros [? ?]|]. by intros [? _].
  - rewrite firstEntry_is_Some. split; [by intros ?; split|by intros [_ ?]].
Qed.

(** X3.  Merging a list of jobs followed by another throws when one of the
    two merges does, and is otherwise the union of the two merges in which
    the first takes precedence. *)
Theorem X3_merge_app (jobs1 jobs2 : list RollupJob) :
  combineAllRollupFields (jobs1 ++ jobs2)
  = match combineAllRollupFields jobs1, combineAllRollupFields jobs2 with
    | inr merged1, inr merged2 => inr (merged1 ∪ merged2)
    | inl e, _ => inl e
    | inr _, inl e => inl e
    end.
Proof.
  pose proof (combineAllRollupFields_spec (jobs1 ++ jobs2)) as H.
  pose proof (combineAllRollupFields_spec jobs1) as H1.
  pose proof (combineAllRollupFields_spec jobs2) as H2.
  rewrite mergeThrows_app in H.
  destruct (mergeThrows jobs1); [by rewrite H, H1|].
  destruct H1 as (m1 & -> & _ & Hl1).
  destruct (mergeThrows jobs2); [by rewrite H, H2|].
  destruct H2 as (m2 & -> & _ & Hl2). destruct H as (m & -> & _ & Hl).
  f_equal. apply map_eq. intros k.
  rewrite lookup_union, Hl, Hl1, Hl2, firstEntry_app.
  destruct (bool_decide (k ∈ inheritedMembers)); [done|].
  by destruct (firstEntry k jobs1), (firstEntry k jobs2).
Qed.

Lemma combineAllRollupFields_empty (jobs : list RollupJob) :
  combineAllRollupFields jobs = inr ∅
  ↔ Forall (λ conf, Forall (λ e, e.1 ∈ inheritedMembers ∧ e.2 = [])
                      (job_fields conf)) jobs.
Proof.
  split.
  - intros Hempty. apply Forall_forall. intros conf Hconf.
    apply Forall_forall. intros [k v] He.
    assert (mergeThrows jobs = false) as Hno.
    { destruct (mergeThrows jobs) eqn:Ht; [|done].
      apply combineAllRollupFields_throws in Ht. congruence. }
    assert (k ∈ inheritedMembers) as Hk.
    { destruct (decide (k ∈ inheritedMembers)) as [|Hk]; [done|].
      pose proof (combineAllRollupFields_lookup _ _ k Hempty) as Hlook.
      rewrite lookup_empty, bool_decide_eq_false_2 in Hlook by done.
      symmetry in Hlook. apply firstEntry_None in Hlook.
      eapply Forall_forall in Hlook; [|exact Hconf]. destruct Hlook.
      unfold jobKeys. apply list_elem_of_fmap. by exists (k, v). }
    split; [done|]. simpl.
    destruct v as [|a v]; [done|].
    assert (mergeThrows jobs = true) as Ht; [|congruence].
    apply mergeThrows_spec. by exists conf, (k, a :: v).
  - intros Hall.
    assert (mergeThrows jobs = false) as Hno.
    { destruct (mergeThrows jobs) eqn:Ht; [|done].
      apply mergeThrows_spec in Ht as (conf & e & Hconf & He & _ & Hne).
      eapply Forall_forall in Hall; [|exact Hconf].
      eapply Forall_forall in Hall; [|exact He]. by destruct Hall. }
    destruct (combineAllRollupFields_returns _ Hno) as [merged Hmerged].
    rewrite Hmerged. f_equal. apply map_eq. intros k.
    rewrite (combineAllRollupFields_lookup _ _ _ Hmerged), lookup_empty.
    case_bool_decide as Hk; [done|].
    apply firstEntry_None. apply Forall_forall. intros conf Hconf Hin.
    unfold jobKeys in Hin. apply list_elem_of_fmap in Hin as (e & -> & He).
    eapply Forall_forall in Hall; [|exact Hconf].
    eapply Forall_forall in Hall; [|exact He]. by destruct Hall.
Qed.

Lemma combineAllRollupFields_no_fields (jobs : list RollupJob) :
  Forall (λ conf, job_fields conf = []) jobs →
  combineAllRollupFields jobs = inr ∅.
Proof.
  intros Hall. apply combineAllRollupFields_empty.
  eapply Forall_impl; [exact Hall|]. intros conf ->. constructor.
Qed.

(** X4.  The merge returns the empty map exactly when every field name
    that a job lists is the name of an inherited member and has an empty
    list, in particular when no job lists any field: these are the job
    lists for which [mix] opens its gate in rollup mode. *)
Theorem X4_merge_empty (jobs : list RollupJob) :
  combineAllRollupFields jobs = inr ∅
  ↔ Forall (λ conf, Forall (λ e, e.1 ∈ inheritedMembers ∧ e.2 = [])
                      (job_fields conf)) jobs.
Proof. apply combineAllRollupFields_empty. Qed.

(** X17.  The merge throws exactly when some job lists at least one
    aggregation under the name of a member that every object inherits,
    and then it throws a [TypeError]. *)
Theorem X17_merge_throws (jobs : list RollupJob) e :
  combineAllRollupFields jobs = inl e
  ↔ e = TypeError
    ∧ ∃ conf k a rest, conf ∈ jobs ∧ (k, a :: rest) ∈ job_fields conf
                       ∧ k ∈ inheritedMembers.
Proof.
  pose proof (combineAllRollupFields_spec jobs) as H.
  destruct (mergeThrows jobs) eqn:Ht.
  - rewrite H. split.
    + intros [= <-]. split; [done|].
      apply mergeThrows_spec in Ht as (conf & [k v] & Hconf & He & Hk & Hne).
      simpl in *. destruct v as [|a rest]; [done|]. by exists conf, k, a, rest.
    + by intros [-> _].
  - destruct H as (m & -> & _). split; [done|].
    intros (_ & conf & k & a & rest & Hconf & He & Hk).
    assert (mergeThrows jobs = true) as Ht'; [|congruence].
    apply mergeThrows_spec. by exists conf, (k, a :: rest).
Qed.

(** X18.  The cross-referencing throws exactly when the rollup map is not
    empty and the type rules pair an aggregation of the catalog with a
    field whose identifier is no key of the rollup map but the name of a
    member that every object inherits; it then throws a [TypeError], and
    otherwise returns. *)
Theorem X18_cross_referencing_throws METRIC_AGG_TYPE fields0 aggs0 rollupFields :
  (∀ e, combineFieldsAndAggs METRIC_AGG_TYPE fields0 aggs0 rollupFields = inl e
        ↔ e = TypeError
          ∧ crossThrows METRIC_AGG_TYPE rollupFields fields0 aggs0)
  ∧ ((∃ r, combineFieldsAndAggs METRIC_AGG_TYPE fields0 aggs0 rollupFields = inr r)
     ↔ ¬ crossThrows METRIC_AGG_TYPE rollupFields fields0 aggs0).
Proof.
  destruct (combineFieldsAndAggs_cases METRIC_AGG_TYPE rollupFields fields0 aggs0)
    as [[Hc ->]|[Hc ->]].
  - split.
    + intros e. split; [by intros [= <-]|by intros [-> _]].
    + split; [by intros [? ?]|done].
  - split.
    + intros e. split; [done|by intros [_ ?]].
    + split; [done|by eexists].
Qed.

(** ** Calls and failures of [getData] *)

Section Calls.

Variable localeCompare : string → string → Z.
Variable METRIC_AGG_TYPE : string.

(** X5.  [getData] rejects exactly in these cases: a call to a collaborator
    rejects (the rollup lookup, the resolution of the index pattern, or the
    fetch of the field capabilities), and then [getData] rejects with the
    failure of that call, which is the last call it makes; or the merge of
    the rollup jobs throws, after the rollup lookup; or the
    cross-referencing throws, after the three calls.  Outside rollup mode
    only the fetch can make it reject. *)
Theorem X5_getData_rejects w ip isRollup cat t e :
  run w (getData localeCompare METRIC_AGG_TYPE ip isRollup cat) = (t, inl e)
  ↔ (isRollup = true ∧ rollupJobs w ip = inl e ∧ t = [EvRollupJobs ip])
    ∨ (isRollup = true
       ∧ ∃ jobs, rollupJobs w ip = inr (Some jobs)
                 ∧ mergeThrows jobs = true
                 ∧ e = TypeError
                 ∧ t = [EvRollupJobs ip])
    ∨ (isRollup = true
       ∧ ∃ jobs, rollupJobs w ip = inr (Some jobs)
                 ∧ mergeThrows jobs = false
                 ∧ rollupIndexPattern w ip = inl e
                 ∧ t = [EvRollupJobs ip; EvIndexPattern ip])
    ∨ (isRollup = true
       ∧ ∃ jobs ip', rollupJobs w ip = inr (Some jobs)
                     ∧ mergeThrows jobs = false
                     ∧ rollupIndexPattern w ip = inr ip'
                     ∧ fieldCaps w ip' = inl e
                     ∧ t = [EvRollupJobs ip; EvIndexPattern ip; EvFieldCaps ip'])
    ∨ (isRollup = true
       ∧ ∃ jobs merged ip' o,
           rollupJobs w ip = inr (Some jobs)
           ∧ combineAllRollupFields jobs = inr merged
           ∧ rollupIndexPattern w ip = inr ip'
           ∧ fieldCaps w ip' = inr o
           ∧ crossThrows METRIC_AGG_TYPE merged (fieldsCreated localeCompare o) cat
           ∧ e = TypeError
           ∧ t = [EvRollupJobs ip; EvIndexPattern ip; EvFieldCaps ip'])
    ∨ (isRollup = false ∧ fieldCaps w ip = inl e ∧ t = [EvFieldCaps ip]).
Proof.
  rewrite run_getData. destruct isRollup.
  2:{ destruct (fieldCaps w ip) as [e1|o] eqn:Hcaps.
      - split.
        + intros [= <- <-]. by do 5 right.
        + intros [[? _]|[[? _]|[[? _]|[[? _]|[[? _]|(_ & [= <-] & ->)]]]]]; done.
      - split; [done|].
        intros [[? _]|[[? _]|[[? _]|[[? _]|[[? _]|(_ & ? & _)]]]]]; done. }
  destruct (rollupJobs w ip) as [e1|[jobs|]] eqn:Hjobs.
  - split.
    + intros [= <- <-]. by left.
    + intros [(_ & [= <-] & ->)|[(_ & ? & ? & _)|[(_ & ? & ? & _)
        |[(_ & ? & ? & ? & _)|[(_ & ? & ? & ? & ? & ? & _)|[? _]]]]]]; done.
  - pose proof (combineAllRollupFields_spec jobs) as Hspec.
    destruct (mergeThrows jobs) eqn:Hthrow.
    { rewrite Hspec. split.
      - intros [= <- <-]. right. left. split; [done|]. by exists jobs.
      - intros [(_ & ? & _)|[(_ & ? & ? & _ & -> & ->)|[(_ & j & [= <-] & ? & _)
          |[(_ & j & ? & [= <-] & ? & _)|[(_ & j & ? & ? & ? & [= <-] & ? & _)
          |[? _]]]]]]; congruence. }
    destruct Hspec as (merged & Hmerged & _). rewrite Hmerged.
    destruct (rollupIndexPattern w ip) as [e2|ip'] eqn:Hip.
    { split.
      - intros [= <- <-]. do 2 right. left. split; [done|]. by exists jobs.
      - intros [(_ & ? & _)|[(_ & j & [= <-] & ? & _)|[(_ & j & _ & _ & [= <-] & ->)
          |[(_ & j & ? & _ & _ & ? & _)|[(_ & j & ? & ? & ? & _ & _ & ? & _)
          |[? _]]]]]]; congruence. }
    destruct (fieldCaps w ip') as [e3|o] eqn:Hcaps.
    { split.
      - intros [= <- <-]. do 3 right. left. split; [done|]. by exists jobs, ip'.
      - intros [(_ & ? & _)|[(_ & j & [= <-] & ? & _)|[(_ & j & _ & _ & ? & _)
          |[(_ & j & x & _ & _ & [= <-] & Hc & ->)
          |[(_ & j & ? & x & ? & _ & _ & [= <-] & Hc & _)|[? _]]]]]];
          congruence. }
    destruct (combineFieldsAndAggs_cases METRIC_AGG_TYPE merged
                (fieldsCreated localeCompare o) cat) as [[Hc ->]|[Hc ->]].
    + split.
      * intros [= <- <-]. do 4 right. left. split; [done|].
        by exists jobs, merged, ip', o.
      * intros [(_ & ? & _)|[(_ & j & [= <-] & ? & _)|[(_ & j & _ & _ & ? & _)
          |[(_ & j & x & _ & _ & [= <-] & ? & _)
          |[(_ & j & ? & x & ? & _ & _ & [= <-] & _ & _ & -> & ->)|[? _]]]]]];
          congruence.
    + split; [done|].
      intros [(_ & ? & _)|[(_ & j & [= <-] & ? & _)|[(_ & j & _ & _ & ? & _)
        |[(_ & j & x & _ & _ & [= <-] & ? & _)
        |[(_ & j & m & x & o' & [= <-] & Hm & [= <-] & Ho & Hc' & _)|[? _]]]]]];
        congruence.
  - split; [done|].
    intros [(_ & ? & _)|[(_ & ? & ? & _)|[(_ & ? & ? & _)
      |[(_ & ? & ? & ? & _)|[(_ & ? & ? & ? & ? & ? & _)|[? _]]]]]]; done.
Qed.

(** X6.  Outside rollup mode the only call is the fetch of the field
    capabilities of the given pattern.  In rollup mode the calls are
    exactly: the rollup lookup; then, when it returned jobs whose merge
    does not throw, the resolution of the index pattern; then, when that
    resolved, one fetch of field capabilities, for the pattern it resolved
    to. *)
Theorem X6_calls_in_order w ip cat :
  (run w (getData localeCompare METRIC_AGG_TYPE ip false cat)).1
  = [EvFieldCaps ip]
  ∧ (run w (getData localeCompare METRIC_AGG_TYPE ip true cat)).1
    = match rollupJobs w ip with
      | inr (Some jobs) =>
          if mergeThrows jobs then [EvRollupJobs ip]
          else match rollupIndexPattern w ip with
               | inr ip' => [EvRollupJobs ip; EvIndexPattern ip; EvFieldCaps ip']
               | inl _ => [EvRollupJobs ip; EvIndexPattern ip]
               end
      | _ => [EvRollupJobs ip]
      end.
Proof.
  rewrite !run_getData. split; [by destruct (fieldCaps w ip)|].
  destruct (rollupJobs w ip) as [e1|[jobs|]]; [done| |done].
  pose proof (combineAllRollupFields_spec jobs) as Hspec.
  destruct (mergeThrows jobs); [by rewrite Hspec|].
  destruct Hspec as (merged & -> & _).
  destruct (rollupIndexPattern w ip) as [e2|ip']; [done|].
  by destruct (fieldCaps w ip').
Qed.

(** X7.  In rollup mode, when the lookup returns jobs none of which lists
    a field, [getData] resolves or rejects as it does outside rollup mode
    for the pattern the rollup service resolved. *)
Theorem X7_rollup_without_fields_as_plain w ip ip' jobs cat :
  rollupJobs w ip = inr (Some jobs) →
  Forall (λ conf, job_fields conf = []) jobs →
  rollupIndexPattern w ip = inr ip' →
  (run w (getData localeCompare METRIC_AGG_TYPE ip true cat)).2
  = (run w (getData localeCompare METRIC_AGG_TYPE ip' false cat)).2.
Proof.
  intros Hjobs Hnone Hip. rewrite !run_getData, Hjobs.
  rewrite (combineAllRollupFields_no_fields _ Hnone), Hip.
  destruct (fieldCaps w ip'); [done|]. simpl.
  apply combineFieldsAndAggs_no_rollup, map_size_empty.
Qed.

End Calls.

(** X19.  A field whose identifier is the name of a member that every
    object inherits.  In rollup mode with the job [{ age: [avg] }] and a
    report with the numeric fields [age] and [constructor], [getData] makes
    its three calls and rejects with a [TypeError]: [mix] finds the
    inherited member under the identifier and calls its missing [find].
    Outside rollup mode the same report resolves, and [constructor] is
    linked like [age]. *)
Theorem X19_inherited_field_id :
  run (Sample.world (Some [Sample.jobAvg]) Sample.reportInherited)
      (getData Sample.codeUnitCompare Sample.METRIC "idx" true Sample.catalog)
  = ([EvRollupJobs "idx"; EvIndexPattern "idx"; EvFieldCaps "rollup-backing-*"],
     inl TypeError)
  ∧ ∃ r,
      run (Sample.world None Sample.reportInherited)
          (getData Sample.codeUnitCompare Sample.METRIC "idx" false Sample.catalog)
      = ([EvFieldCaps "idx"], inr r)
      ∧ fieldsView r = [("age", ["avg"; "cardinality"]);
                        ("constructor", ["avg"; "cardinality"])].
Proof.
  split; [vm_compute; reflexivity|].
  eexists. split; vm_compute; reflexivity.
Qed.

(** X20.  A rollup job that lists the name of a member that every object
    inherits.  With the job [{ constructor: [max], age: [avg] }] the merge
    throws: [getData] rejects with a [TypeError] after the rollup lookup,
    its only call.  With the job [{ constructor: [] }] the merge returns
    the empty map, and [getData] resolves as it does outside rollup mode
    for the pattern the rollup service resolved. *)
Theorem X20_inherited_job_field :
  run (Sample.world (Some [Sample.jobInherited]) Sample.report)
      (getData Sample.codeUnitCompare Sample.METRIC "idx" true Sample.catalog)
  = ([EvRollupJobs "idx"], inl TypeError)
  ∧ combineAllRollupFields [Sample.jobInheritedEmpty] = inr ∅
  ∧ run (Sample.world (Some [Sample.jobInheritedEmpty]) Sample.report)
        (getData Sample.codeUnitCompare Sample.METRIC "idx" true Sample.catalog)
    = ([EvRollupJobs "idx"; EvIndexPattern "idx"; EvFieldCaps "rollup-backing-*"],
       (run (Sample.world None Sample.report)
            (getData Sample.codeUnitCompare Sample.METRIC "rollup-backing-*" false
               Sample.catalog)).2).
Proof.
  split; [vm_compute; reflexivity|].
  split; [reflexivity|]. vm_compute. reflexivity.
Qed.

(** ** The shape of the links *)

Lemma typeRule_linkable METRIC_AGG_TYPE f a :
  typeRule METRIC_AGG_TYPE f a → f_type f ∈ linkableTypes.
Proof.
  intros (_ & _ & [Hnum|[_ Htk]]); unfold linkableTypes.
  - apply numerical_types in Hnum as [->|[->| ->]]; rewrite !elem_of_cons; tauto.
  - apply text_keyword_types in Htk as [->| ->]; rewrite !elem_of_cons; tauto.
Qed.

Section LinkStructure.

Variable METRIC_AGG_TYPE : string.
Variable rollupFields : gmap string (list RollupAgg).
Variables (fields0 : list Field) (aggs0 : list Aggregation).
Hypothesis fields0_fresh : Forall fresh fields0.
Hypothesis aggs0_unlinked : Forall unlinked aggs0.

Let r := combine_result METRIC_AGG_TYPE fields0 aggs0 rollupFields.

Lemma combined_field_has_list i f :
  s_fields (store r) !! i = Some f → ∃ l, f_aggs f = Some l.
Proof.
  intros Hi.
  destruct (store_extends_field _ _ _ _ (combined_extends _ _ _ _) Hi)
    as (f0 & Hf0 & _ & Hg).
  simpl in Hf0. eapply Forall_lookup_1 in fields0_fresh; [|exact Hf0].
  unfold fresh in fields0_fresh. rewrite fields0_fresh in Hg.
  destruct (f_aggs f) as [l|]; [by exists l|done].
Qed.

Lemma combined_rules_linked i j f a :
  s_fields (store r) !! i = Some f → s_aggs (store r) !! j = Some a →
  typeRule METRIC_AGG_TYPE f a → gateOpen rollupFields f a →
  linked (store r) i j.
Proof.
  intros Hi Hj Hrule Hgate.
  destruct (store_extends_field _ _ _ _ (combined_extends _ _ _ _) Hi)
    as (f0 & Hf0 & Hmf & _).
  destruct (store_extends_agg _ _ _ _ (combined_extends _ _ _ _) Hj)
    as (a0 & Ha0 & Hma & _).
  apply (linkedStore_linked METRIC_AGG_TYPE rollupFields fields0 aggs0 i j f0 a0);
    [done|done| |].
  - by eapply typeRule_meta.
  - by eapply gateOpen_meta.
Qed.

Lemma combined_links_symmetric i j f a lf la :
  s_fields (store r) !! i = Some f → s_aggs (store r) !! j = Some a →
  f_aggs f = Some lf → a_fields a = Some la →
  j ∈ lf ↔ i ∈ la.
Proof.
  intros Hi Hj Hlf Hla. split; intros Hin.
  - destruct (combined_link_rules METRIC_AGG_TYPE rollupFields fields0 aggs0
                fields0_fresh aggs0_unlinked i j f a Hi Hj) as [Hrule Hgate].
    { left. by exists lf. }
    destruct (combined_rules_linked i j f a Hi Hj Hrule Hgate) as [_ HA].
    by eapply HA.
  - destruct (combined_link_rules METRIC_AGG_TYPE rollupFields fields0 aggs0
                fields0_fresh aggs0_unlinked i j f a Hi Hj) as [Hrule Hgate].
    { right. by exists la. }
    destruct (combined_rules_linked i j f a Hi Hj Hrule Hgate) as [HF _].
    by eapply HF.
Qed.

Lemma combined_linkedIn_returned f a :
  linkedIn r f a →
  f ∈ returnedFields r ∧ (a_fields a ≠ None → a ∈ returnedAggs r).
Proof.
  unfold r. intros [[Hf Ha]|[Ha Hf]].
  - split; [done|]. intros Hsome.
    destruct (combined_returnedField_inv _ _ _ _ _ Hf)
      as (i & f0 & j0 & l & Hi & _ & _ & Hl).
    rewrite (aggsOf_Some _ _ _ Hl) in Ha.
    apply elem_of_deref in Ha as (j & Hj & Hja).
    destruct (a_fields a) as [la|] eqn:Hla; [|done].
    apply (combined_links_symmetric i j f a _ la Hi Hja Hl Hla) in Hj.
    rewrite combined_returnedAggs, list_elem_of_filter. split.
    + unfold hasFields. rewrite Hla. destruct la; [by apply elem_of_nil in Hj|done].
    + by eapply list_elem_of_lookup_2.
  - destruct (combined_returnedAgg_inv _ _ _ _ _ Ha)
      as (j & a0 & i0 & l & Hj & _ & _ & Hl).
    rewrite (fieldsOf_Some _ _ _ Hl) in Hf.
    apply elem_of_deref in Hf as (i & Hi & Hif).
    destruct (combined_field_has_list i f Hif) as [lf Hlf].
    apply (combined_links_symmetric i j f a lf _ Hif Hj Hlf Hl) in Hi.
    split.
    + rewrite combined_returnedFields, list_elem_of_filter. split.
      * unfold hasAggs. rewrite Hlf. destruct lf; [by apply elem_of_nil in Hi|done].
      * by eapply list_elem_of_lookup_2.
    + intros _. done.
Qed.

Lemma combined_linked_field_type i f j l :
  s_fields (store r) !! i = Some f → f_aggs f = Some (j :: l) →
  f_type f ∈ linkableTypes.
Proof.
  intros Hi Hl.
  destruct (combined_links_sat METRIC_AGG_TYPE rollupFields fields0 aggs0
              fields0_fresh aggs0_unlinked) as [HF _].
  destruct (HF i f (j :: l) j Hi Hl) as (f0 & a0 & Hf0 & _ & Hrule & _); [by left|].
  destruct (store_extends_field _ _ _ _ (combined_extends _ _ _ _) Hi)
    as (f0' & Hf0' & Hm & _).
  simpl in Hf0'. rewrite Hf0 in Hf0'. injection Hf0' as <-.
  injection Hm as _ _ <- _. by eapply typeRule_linkable.
Qed.

Lemma combined_linked_agg_field_type j a i l :
  s_aggs (store r) !! j = Some a → a_fields a = Some (i :: l) →
  ∃ f0, fields0 !! i = Some f0 ∧ f_type f0 ∈ linkableTypes.
Proof.
  intros Hj Hl.
  destruct (combined_links_sat METRIC_AGG_TYPE rollupFields fields0 aggs0
              fields0_fresh aggs0_unlinked) as [_ HA].
  destruct (HA j a (i :: l) i Hj Hl) as (f0 & a0 & Hf0 & _ & Hrule & _); [by left|].
  exists f0. split; [done|]. by eapply typeRule_linkable.
Qed.

End LinkStructure.

(** X8.  Cross-referencing fields that start without links with a
    catalog that starts without links returns, unless it is in the case
    where it throws; in the store it returns, the aggregation at [j] is in
    the list of the field at [i] exactly when the type rules allow the pair
    (a metric aggregation other than count, a numeric field or, for
    cardinality, a text or keyword field) and the rollup gate is open (the
    rollup map is empty, or lists the aggregation for the field). *)
Theorem X8_links_exactly_by_rules METRIC_AGG_TYPE rollupFields fields0 aggs0 :
  Forall fresh fields0 →
  Forall unlinked aggs0 →
  ¬ crossThrows METRIC_AGG_TYPE rollupFields fields0 aggs0 →
  ∃ r,
    combineFieldsAndAggs METRIC_AGG_TYPE fields0 aggs0 rollupFields = inr r
    ∧ ∀ i j f a,
        s_fields (store r) !! i = Some f →
        s_aggs (store r) !! j = Some a →
        ((∃ l, f_aggs f = Some l ∧ j ∈ l)
         ↔ typeRule METRIC_AGG_TYPE f a ∧ gateOpen rollupFields f a).
Proof.
  intros Hfresh Hunlinked Hno.
  destruct (combineFieldsAndAggs_cases METRIC_AGG_TYPE rollupFields fields0 aggs0)
    as [[Hc _]|[_ ->]]; [done|].
  eexists. split; [reflexivity|].
  intros i j f a Hi Hj. split.
  - intros Hlink. eapply combined_link_rules; eauto.
  - intros [Hrule Hgate].
    destruct (combined_field_has_list METRIC_AGG_TYPE rollupFields fields0 aggs0
                Hfresh i f Hi) as [l Hl].
    exists l. split; [done|].
    destruct (combined_rules_linked METRIC_AGG_TYPE rollupFields fields0 aggs0
                i j f a Hi Hj Hrule Hgate) as [HF _].
    by eapply HF.
Qed.

Section Shape.

Variable localeCompare : string → string → Z.
Variable METRIC_AGG_TYPE : string.

(** X9.  In a result of [getData], links go both ways: for a field and an
    aggregation of the store that both hold a list, the aggregation is in
    the field's list exactly when the field is in the aggregation's list.
    The catalog is one whose field lists start empty or absent. *)
Theorem X9_links_go_both_ways w ip isRollup cat t r :
  Forall unlinked cat →
  run w (getData localeCompare METRIC_AGG_TYPE ip isRollup cat) = (t, inr r) →
  ∀ i j f a lf la,
    s_fields (store r) !! i = Some f →
    s_aggs (store r) !! j = Some a →
    f_aggs f = Some lf →
    a_fields a = Some la →
    (j ∈ lf ↔ i ∈ la).
Proof.
  intros Hcat Hrun i j f a lf la.
  apply run_getData_inv in Hrun
    as [(_ & _ & _ & ->)|(rf & ip' & o & _ & -> & _)]; [done|].
  apply combined_links_symmetric; [apply fieldsCreated_fresh|done].
Qed.

(** X10.  A result of [getData] holds no link to an object that was
    filtered out: when a field and an aggregation are linked in it, the
    field is among the returned fields and the aggregation, if it holds a
    list at all, among the returned aggregations. *)
Theorem X10_linked_objects_are_returned w ip isRollup cat t r :
  Forall unlinked cat →
  run w (getData localeCompare METRIC_AGG_TYPE ip isRollup cat) = (t, inr r) →
  ∀ f a, linkedIn r f a →
    f ∈ returnedFields r ∧ (a_fields a ≠ None → a ∈ returnedAggs r).
Proof.
  intros Hcat Hrun f a.
  apply run_getData_inv in Hrun
    as [(_ & _ & _ & ->)|(rf & ip' & o & _ & -> & _)].
  - intros [[Hf _]|[Ha _]]; by apply elem_of_nil in Hf || by apply elem_of_nil in Ha.
  - apply combined_linkedIn_returned; [apply fieldsCreated_fresh|done].
Qed.

(** X11.  Every returned field is of type keyword, text, double, float or
    long: a field of another supported type (date, integer, byte, short,
    half_float, scaled_float) is built by [createFields] and never
    returned, in rollup mode or not. *)
Theorem X11_returned_field_types w ip isRollup cat t r :
  Forall unlinked cat →
  run w (getData localeCompare METRIC_AGG_TYPE ip isRollup cat) = (t, inr r) →
  ∀ f, f ∈ returnedFields r →
    f_type f ∈ ["keyword"; "text"; "double"; "float"; "long"].
Proof.
  intros Hcat Hrun f Hf.
  apply run_getData_inv in Hrun
    as [(_ & _ & _ & ->)|(rf & ip' & o & _ & -> & _)];
    [by apply elem_of_nil in Hf|].
  apply combined_returnedField_inv in Hf as (i & _ & j & l & Hi & _ & _ & Hl).
  eapply (combined_linked_field_type METRIC_AGG_TYPE rf _ cat
            (fieldsCreated_fresh localeCompare o) Hcat); eauto.
Qed.

End Shape.

(** ** Fields without a linkable type, identifiers, catalog order *)

Lemma fieldsCreated_origin cmp o f :
  f ∈ fieldsCreated cmp o →
  ∃ (report : list (string * list (string * FieldCapability))) k v d rest,
    o = Some {| fc_fields := Some report |}
    ∧ (k, (v, d) :: rest) ∈ report
    ∧ fc_type d = Some (f_type f) ∧ f_id f = k.
Proof.
  unfold fieldsCreated. rewrite sort_elem_of. unfold collectFields.
  destruct o as [[[report|]]|]; try by intros ?%elem_of_nil.
  intros [?%elem_of_nil|(k & fc & Hk & Hf)]%addField_loop_elem_of; [done|].
  apply addField_elem_of in Hf as (v & d & rest & ty & -> & Hty & _ & ->).
  by exists report, k, v, d, rest.
Qed.

Lemma addField_loop_app (report : list (string * list (string * FieldCapability)))
    acc :
  forEach report acc addField = acc ++ forEach report [] addField.
Proof.
  revert acc. induction report as [|e report IH]; intros acc.
  - by rewrite !forEach_nil, app_nil_r.
  - rewrite !forEach_cons, IH, (IH (addField [] e)), addField_app.
    by rewrite app_assoc.
Qed.

Lemma addField_ids k fc :
  f_id <$> addField [] (k, fc) = [] ∨ f_id <$> addField [] (k, fc) = [k].
Proof.
  unfold addField. destruct (head fc) as [[v d]|]; [|by left].
  destruct (fc_type d) as [ty|]; [|by left].
  destruct (includes supportedTypes (Some ty)); [by right|by left].
Qed.

Lemma collected_ids_sublist (report : list (string * list (string * FieldCapability))) :
  f_id <$> forEach report [] addField `sublist_of` report.*1.
Proof.
  induction report as [|[k fc] report IH]; [done|].
  rewrite forEach_cons, addField_loop_app, fmap_app.
  destruct (addField_ids k fc) as [-> | ->]; csimpl.
  - by apply sublist_cons.
  - by apply sublist_skip.
Qed.

Lemma store_extends_agg_metas s s' :
  store_extends s s' → agg_meta <$> s_aggs s = agg_meta <$> s_aggs s'.
Proof.
  intros [_ Ha]. induction Ha as [|a a' l l' [Hm _] _ IH]; [done|].
  csimpl. by rewrite IH, Hm.
Qed.

Section Reports.

Variable localeCompare : string → string → Z.
Variable METRIC_AGG_TYPE : string.

(** X12.  When no field of the reports has a first variant of type
    keyword, text, double, float or long (in particular when
    [_field_caps] answers [null], or without [fields], or with no field),
    [getData] resolves to no field and no aggregation.  The catalog is one
    whose field lists start empty or absent. *)
Theorem X12_no_linkable_field_empty_result w ip isRollup cat t r :
  Forall unlinked cat →
  (∀ ix (report : list (string * list (string * FieldCapability))) k v d rest ty,
     fieldCaps w ix = inr (Some {| fc_fields := Some report |}) →
     (k, (v, d) :: rest) ∈ report →
     fc_type d = Some ty →
     ty ∉ ["keyword"; "text"; "double"; "float"; "long"]) →
  run w (getData localeCompare METRIC_AGG_TYPE ip isRollup cat) = (t, inr r) →
  fields r = [] ∧ aggs r = [].
Proof.
  intros Hcat Hnone Hrun.
  apply run_getData_inv in Hrun
    as [(_ & _ & _ & ->)|(rf & ip' & o & Hcaps & -> & _)]; [done|].
  pose proof (fieldsCreated_fresh localeCompare o) as Hfresh.
  assert (∀ f0, f0 ∈ fieldsCreated localeCompare o → f_type f0 ∉ linkableTypes)
    as Hcreated.
  { intros f0 (report & k & v & d & rest & -> & Hk & Hty & _)%fieldsCreated_origin.
    by eapply Hnone. }
  split; apply elem_of_nil_inv.
  - intros i (f & Hi & Hhas)%elem_of_filter_refs.
    unfold hasAggs in Hhas. destruct (f_aggs f) as [[|j l]|] eqn:Hl; try done.
    pose proof (combined_linked_field_type METRIC_AGG_TYPE rf _ cat Hfresh Hcat
                  i f j l Hi Hl) as Hty.
    destruct (store_extends_field _ _ _ _ (combined_extends _ _ _ _) Hi)
      as (f0 & Hf0 & Hm & _).
    injection Hm as _ _ Htype _. rewrite <- Htype in Hty.
    eapply Hcreated; [|exact Hty]. by eapply list_elem_of_lookup_2.
  - intros j (a & Hj & Hhas)%elem_of_filter_refs.
    unfold hasFields in Hhas. destruct (a_fields a) as [[|i l]|] eqn:Hl; try done.
    destruct (combined_linked_agg_field_type METRIC_AGG_TYPE rf _ cat Hfresh Hcat
                j a i l Hj Hl) as (f0 & Hf0 & Hty).
    eapply Hcreated; [|exact Hty]. by eapply list_elem_of_lookup_2.
Qed.

(** X13.  When the field names of every report are pairwise distinct (they
    are the keys of an object), so are the identifiers of the returned
    fields. *)
Theorem X13_returned_ids_distinct w ip isRollup cat t r :
  (∀ ix (report : list (string * list (string * FieldCapability))),
     fieldCaps w ix = inr (Some {| fc_fields := Some report |}) →
     NoDup report.*1) →
  run w (getData localeCompare METRIC_AGG_TYPE ip isRollup cat) = (t, inr r) →
  NoDup (f_id <$> returnedFields r).
Proof.
  intros Hkeys Hrun.
  apply run_getData_inv in Hrun
    as [(_ & _ & _ & ->)|(rf & ip' & o & Hcaps & -> & _)]; [constructor|].
  rewrite combined_returnedFields.
  eapply sublist_NoDup; [|apply fmap_sublist, sublist_filter].
  rewrite <- (store_extends_ids _ _ (combined_extends _ _ _ _)). simpl.
  unfold fieldsCreated. rewrite sort_perm. unfold collectFields.
  destruct o as [[[report|]]|]; try constructor.
  eapply sublist_NoDup; [|apply collected_ids_sublist]. by eapply Hkeys.
Qed.

(** X14.  The returned aggregations are aggregations of the catalog, in
    catalog order, with their identifier, DSL name and type unchanged. *)
Theorem X14_returned_aggs_in_catalog_order w ip isRollup cat t r :
  run w (getData localeCompare METRIC_AGG_TYPE ip isRollup cat) = (t, inr r) →
  agg_meta <$> returnedAggs r `sublist_of` agg_meta <$> cat.
Proof.
  intros Hrun.
  apply run_getData_inv in Hrun
    as [(_ & _ & _ & ->)|(rf & ip' & o & Hcaps & -> & _)]; [apply sublist_nil_l|].
  rewrite combined_returnedAggs.
  pose proof (store_extends_agg_metas _ _
                (combined_extends METRIC_AGG_TYPE rf
                   (fieldsCreated localeCompare o) cat)) as Hmeta.
  simpl in Hmeta. rewrite Hmeta.
  apply fmap_sublist, sublist_filter.
Qed.

End Reports.

(** ** No pair is linked twice *)

Lemma refs_disjoint (fields0 : list Field) :
  NoDup (getTextAndKeywordFields fields0 ++ getNumericalFields fields0).
Proof.
  apply NoDup_app. split; [|split].
  - apply NoDup_filter, NoDup_seq.
  - intros i (f & Hf & Htk)%elem_of_filter_refs (f' & Hf' & Hnum)%elem_of_filter_refs.
    rewrite Hf in Hf'. injection Hf' as <-.
    by apply text_keyword_not_numerical in Htk.
  - apply NoDup_filter, NoDup_seq.
Qed.

Section NoRepeat.

Variable METRIC_AGG_TYPE : string.
Variable rollupFields : gmap string (list RollupAgg).

Lemma aggsPending_weaken n pending pending' s :
  (∀ i, i ∈ pending' → i ∈ pending) →
  aggsPending n pending s → aggsPending n pending' s.
Proof.
  intros Hsub Hinv i f l Hi Hl.
  destruct (Hinv i f l Hi Hl) as (? & ? & Hp). repeat split; auto.
Qed.

Lemma mix_aggsPending n i pending s :
  i ∉ pending →
  aggsPending n (i :: pending) s →
  aggsPending n pending (mix_result rollupFields i n s).
Proof.
  intros Hni Hinv.
  assert (aggsPending n pending s) as Hweak.
  { eapply aggsPending_weaken; [|exact Hinv]. intros; by right. }
  unfold mix_result.
  destruct (s_fields s !! i) as [field|] eqn:Hf; [|done].
  destruct (s_aggs s !! n) as [aggregation|] eqn:Ha; [|done].
  destruct (_ || _); [|done].
  intros i' f' l Hi' Hl. simpl in Hi'.
  destruct (decide (i = i')) as [<-|Hne].
  - rewrite list_lookup_alter_eq, Hf in Hi'. injection Hi' as <-.
    unfold push_agg in Hl.
    destruct (f_aggs field) as [l0|] eqn:Hl0; simpl in Hl; [|congruence].
    injection Hl as <-.
    destruct (Hinv i field l0 Hf Hl0) as (Hsorted & _ & Hbelow).
    specialize (Hbelow ltac:(by left)).
    split; [|split].
    + apply StronglySorted_app. split; [|split; [done|repeat constructor]].
      intros x1 x2 Hx1 ->%list_elem_of_singleton.
      by eapply Forall_forall in Hbelow.
    + apply Forall_app. split.
      * eapply Forall_impl; [exact Hbelow|]. intros; simpl in *; lia.
      * repeat constructor.
    + done.
  - rewrite list_lookup_alter_ne in Hi' by done. by eapply Hweak.
Qed.

Lemma mix_loop_aggsPending n (refs rest : list nat) s :
  NoDup (refs ++ rest) →
  aggsPending n (refs ++ rest) s →
  aggsPending n rest (forEach refs s (λ s f, mix_result rollupFields f n s)).
Proof.
  revert s. induction refs as [|i refs IH]; intros s Hnd Hinv; [done|].
  rewrite forEach_cons. simpl in Hnd. apply NoDup_cons in Hnd as [Hni Hnd].
  apply IH; [done|]. by apply mix_aggsPending.
Qed.

Lemma aggsBelow_pending n pending s : aggsBelow n s → aggsPending n pending s.
Proof.
  intros Hinv i f l Hi Hl. destruct (Hinv i f l Hi Hl) as [? Hb].
  split; [done|]. split; [|done].
  eapply Forall_impl; [exact Hb|]. intros; simpl in *; lia.
Qed.

Lemma aggsPending_below n s : aggsPending n [] s → aggsBelow (S n) s.
Proof.
  intros Hinv i f l Hi Hl. by destruct (Hinv i f l Hi Hl) as (? & ? & _).
Qed.

Lemma fieldsPending_weaken n pending pending' s :
  (∀ i, i ∈ pending' → i ∈ pending) →
  fieldsPending n pending s → fieldsPending n pending' s.
Proof.
  intros Hsub Hinv j a l Hj Hl.
  destruct (Hinv j a l Hj Hl) as (? & ? & Hp). repeat split; auto.
  intros -> x Hx Hin. eapply Hp; eauto.
Qed.

Lemma mix_fieldsPending n i pending s :
  i ∉ pending →
  fieldsPending n (i :: pending) s →
  fieldsPending n pending (mix_result rollupFields i n s).
Proof.
  intros Hni Hinv.
  assert (fieldsPending n pending s) as Hweak.
  { eapply fieldsPending_weaken; [|exact Hinv]. intros; by right. }
  unfold mix_result.
  destruct (s_fields s !! i) as [field|] eqn:Hf; [|done].
  destruct (s_aggs s !! n) as [aggregation|] eqn:Ha; [|done].
  destruct (_ || _); [|done].
  intros j a' l Hj Hl. simpl in Hj.
  destruct (decide (n = j)) as [<-|Hne].
  - rewrite list_lookup_alter_eq, Ha in Hj. injection Hj as <-.
    unfold push_field in Hl.
    destruct (a_fields aggregation) as [l0|] eqn:Hl0; simpl in Hl; [|congruence].
    injection Hl as <-.
    destruct (Hinv n aggregation l0 Ha Hl0) as (Hnd & _ & Hnot).
    specialize (Hnot eq_refl).
    split; [|split].
    + apply NoDup_app. split; [done|]. split; [|apply NoDup_singleton].
      intros x Hx ->%list_elem_of_singleton. apply (Hnot i Hx). by left.
    + lia.
    + intros _ x [Hx| ->%list_elem_of_singleton]%elem_of_app; [|done].
      intros Hin. apply (Hnot x Hx). by right.
  - rewrite list_lookup_alter_ne in Hj by done. by eapply Hweak.
Qed.

Lemma mix_loop_fieldsPending n (refs rest : list nat) s :
  NoDup (refs ++ rest) →
  fieldsPending n (refs ++ rest) s →
  fieldsPending n rest (forEach refs s (λ s f, mix_result rollupFields f n s)).
Proof.
  revert s. induction refs as [|i refs IH]; intros s Hnd Hinv; [done|].
  rewrite forEach_cons. simpl in Hnd. apply NoDup_cons in Hnd as [Hni Hnd].
  apply IH; [done|]. by apply mix_fieldsPending.
Qed.

Lemma fieldsDone_pending n pending s : fieldsDone n s → fieldsPending n pending s.
Proof.
  intros Hinv j a l Hj Hl. destruct (Hinv j a l Hj Hl) as [? Hempty].
  split; [done|]. split.
  - intros. apply Hempty. lia.
  - intros -> x Hx. rewrite Hempty in Hx by lia. by apply elem_of_nil in Hx.
Qed.

Lemma fieldsPending_done n s : fieldsPending n [] s → fieldsDone (S n) s.
Proof.
  intros Hinv j a l Hj Hl. destruct (Hinv j a l Hj Hl) as (? & Hempty & _).
  split; [done|]. intros. apply Hempty. lia.
Qed.

Variable fields0 : list Field.

Let body := linkAgg_result METRIC_AGG_TYPE (mix_result rollupFields)
              (getTextAndKeywordFields fields0) (getNumericalFields fields0).

Lemma linkAgg_aggsBelow n s : aggsBelow n s → aggsBelow (S n) (body s n).
Proof.
  intros Hinv.
  assert (aggsBelow (S n) s) as Hkeep.
  { intros i f l Hi Hl. destruct (Hinv i f l Hi Hl) as [? Hb]. split; [done|].
    eapply Forall_impl; [exact Hb|]. intros; simpl in *; lia. }
  pose proof (refs_disjoint fields0) as Hnd.
  unfold body, linkAgg_result. destruct (s_aggs s !! n) as [aggregation|]; [|done].
  repeat case_bool_decide; try done.
  - apply aggsPending_below. cbv zeta.
    apply (mix_loop_aggsPending n (getNumericalFields fields0) []).
    { rewrite app_nil_r. by apply NoDup_app in Hnd as (_ & _ & ?). }
    rewrite app_nil_r. apply mix_loop_aggsPending; [done|].
    by apply aggsBelow_pending.
  - apply aggsPending_below.
    apply (mix_loop_aggsPending n (getNumericalFields fields0) []).
    { rewrite app_nil_r. by apply NoDup_app in Hnd as (_ & _ & ?). }
    by apply aggsBelow_pending.
Qed.

Lemma linkAgg_fieldsDone n s : fieldsDone n s → fieldsDone (S n) (body s n).
Proof.
  intros Hinv.
  assert (fieldsDone (S n) s) as Hkeep.
  { intros j a l Hj Hl. destruct (Hinv j a l Hj Hl) as [? He]. split; [done|].
    intros. apply He. lia. }
  pose proof (refs_disjoint fields0) as Hnd.
  unfold body, linkAgg_result. destruct (s_aggs s !! n) as [aggregation|]; [|done].
  repeat case_bool_decide; try done.
  - apply fieldsPending_done. cbv zeta.
    apply (mix_loop_fieldsPending n (getNumericalFields fields0) []).
    { rewrite app_nil_r. by apply NoDup_app in Hnd as (_ & _ & ?). }
    rewrite app_nil_r. apply mix_loop_fieldsPending; [done|].
    by apply fieldsDone_pending.
  - apply fieldsPending_done.
    apply (mix_loop_fieldsPending n (getNumericalFields fields0) []).
    { rewrite app_nil_r. by apply NoDup_app in Hnd as (_ & _ & ?). }
    by apply fieldsDone_pending.
Qed.

Lemma link_loop_aggsBelow len s :
  aggsBelow 0 s → aggsBelow len (forEach (seq 0 len) s body).
Proof.
  intros Hinv. induction len as [|len IH]; [done|].
  rewrite seq_S, forEach_app. simpl. by apply linkAgg_aggsBelow.
Qed.

Lemma link_loop_fieldsDone len s :
  fieldsDone 0 s → fieldsDone len (forEach (seq 0 len) s body).
Proof.
  intros Hinv. induction len as [|len IH]; [done|].
  rewrite seq_S, forEach_app. simpl. by apply linkAgg_fieldsDone.
Qed.

Lemma combined_aggs_increasing aggs0 i f l :
  Forall fresh fields0 →
  s_fields (store (combine_result METRIC_AGG_TYPE fields0 aggs0 rollupFields))
    !! i = Some f →
  f_aggs f = Some l →
  StronglySorted lt l ∧ Forall (λ j, j < length aggs0) l.
Proof.
  intros Hfresh. apply link_loop_aggsBelow.
  intros i' f' l' Hi' Hl'. simpl in Hi'.
  eapply Forall_lookup_1 in Hfresh; [|exact Hi'].
  unfold fresh in Hfresh. rewrite Hl' in Hfresh. injection Hfresh as ->.
  split; constructor.
Qed.

Lemma combined_fields_no_repeat aggs0 j a l :
  Forall unlinked aggs0 →
  s_aggs (store (combine_result METRIC_AGG_TYPE fields0 aggs0 rollupFields))
    !! j = Some a →
  a_fields a = Some l →
  NoDup l.
Proof.
  intros Hunlinked Hj Hl.
  eapply (link_loop_fieldsDone (length aggs0)); [|exact Hj|exact Hl].
  intros j' a' l' Hj' Hl'. simpl in Hj'.
  eapply Forall_lookup_1 in Hunlinked; [|exact Hj'].
  destruct Hunlinked as [Hu|Hu]; rewrite Hl' in Hu; [|done].
  injection Hu as ->. split; [constructor|done].
Qed.

End NoRepeat.

Section Order.

Variable localeCompare : string → string → Z.
Variable METRIC_AGG_TYPE : string.

(** X15.  The list of aggregations of a returned field is in catalog
    order and names none twice: its references are strictly increasing
    positions of the catalog. *)
Theorem X15_field_aggs_in_catalog_order w ip isRollup cat t r :
  run w (getData localeCompare METRIC_AGG_TYPE ip isRollup cat) = (t, inr r) →
  ∀ f l, f ∈ returnedFields r → f_aggs f = Some l →
    StronglySorted lt l ∧ Forall (λ j, j < length cat) l.
Proof.
  intros Hrun f l Hf Hl.
  apply run_getData_inv in Hrun
    as [(_ & _ & _ & ->)|(rf & ip' & o & _ & -> & _)];
    [by apply elem_of_nil in Hf|].
  apply combined_returnedField_inv in Hf as (i & _ & _ & _ & Hi & _).
  eapply combined_aggs_increasing; [apply fieldsCreated_fresh|exact Hi|exact Hl].
Qed.

(** X16.  The list of fields of a returned aggregation names no field
    twice, and every reference in it is to a field of the result's store.
    The catalog is one whose field lists start empty or absent. *)
Theorem X16_agg_fields_without_repeats w ip isRollup cat t r :
  Forall unlinked cat →
  run w (getData localeCompare METRIC_AGG_TYPE ip isRollup cat) = (t, inr r) →
  ∀ a l, a ∈ returnedAggs r → a_fields a = Some l →
    NoDup l ∧ Forall (λ i, is_Some (s_fields (store r) !! i)) l.
Proof.
  intros Hcat Hrun a l Ha Hl.
  apply run_getData_inv in Hrun
    as [(_ & _ & _ & ->)|(rf & ip' & o & _ & -> & _)];
    [by apply elem_of_nil in Ha|].
  apply combined_returnedAgg_inv in Ha as (j & _ & _ & _ & Hj & _).
  split.
  - eapply combined_fields_no_repeat; [exact Hcat|exact Hj|exact Hl].
  - apply Forall_forall. intros i Hi.
    destruct (combined_links_sat METRIC_AGG_TYPE rf _ cat
                (fieldsCreated_fresh localeCompare o) Hcat) as [_ HA].
    destruct (HA j a l i Hj Hl Hi) as (f0 & _ & Hf0 & _).
    destruct (store_extends_field_l _ _ i f0
                (combined_extends METRIC_AGG_TYPE rf
                   (fieldsCreated localeCompare o) cat) Hf0)
      as (f & Hf & _).
    by exists f.
Qed.

End Order.

(** ** The further properties at sample inputs *)

(** X1 at three jobs: the second is the first to list [bytes]. *)
Lemma X1_witness :
  ∃ merged,
    combineAllRollupFields ([Sample.jobMax] ++ Sample.jobTwoFields :: [Sample.jobAvg])
    = inr merged
    ∧ merged !! "bytes" = Some [ {| agg := "max" |} ].
Proof.
  apply (X1_merge_first_job_wins [Sample.jobMax] [Sample.jobAvg]
           Sample.jobTwoFields "bytes" [ {| agg := "max" |} ]).
  - vm_compute. reflexivity.
  - apply (bool_decide_unpack _). vm_compute. exact I.
  - apply (bool_decide_unpack _). vm_compute. exact I.
  - apply (bool_decide_unpack _). vm_compute. exact I.
  - cbn. apply list_elem_of_further, list_elem_of_here.
Defined.

(** X2 at two jobs, one of which lists [constructor] with no
    aggregation. *)
Lemma X2_witness :
  ∃ merged,
    combineAllRollupFields [Sample.jobInheritedEmpty; Sample.jobAvg] = inr merged
    ∧ ∀ k, is_Some (merged !! k)
           ↔ (k ∉ inheritedMembers)
             ∧ ∃ conf, conf ∈ [Sample.jobInheritedEmpty; Sample.jobAvg]
                       ∧ k ∈ jobKeys conf.
Proof.
  apply (X2_merge_keys [Sample.jobInheritedEmpty; Sample.jobAvg]).
  vm_compute. reflexivity.
Defined.

(** X7 at a rollup lookup that returns one job without fields. *)
Lemma X7_witness :
  (run (Sample.world (Some [Sample.jobEmpty]) Sample.report)
       (getData Sample.codeUnitCompare Sample.METRIC "idx" true Sample.catalog)).2
  = (run (Sample.world (Some [Sample.jobEmpty]) Sample.report)
         (getData Sample.codeUnitCompare Sample.METRIC "rollup-backing-*" false
            Sample.catalog)).2.
Proof.
  apply (X7_rollup_without_fields_as_plain Sample.codeUnitCompare Sample.METRIC
           (Sample.world (Some [Sample.jobEmpty]) Sample.report)
           "idx" "rollup-backing-*" [Sample.jobEmpty] Sample.catalog).
  - reflexivity.
  - repeat constructor.
  - reflexivity.
Defined.

(** X8 at the fields of the sample report, the sample catalog and the
    rollup map that lists [avg] for [age]. *)
Lemma X8_witness :
  ∃ r,
    combineFieldsAndAggs Sample.METRIC
      (fieldsCreated Sample.codeUnitCompare
         (Some {| fc_fields := Some Sample.report |}))
      Sample.catalog (mergedOf (combineAllRollupFields [Sample.jobAvg]))
    = inr r
    ∧ ∀ i j f a,
        s_fields (store r) !! i = Some f →
        s_aggs (store r) !! j = Some a →
        ((∃ l, f_aggs f = Some l ∧ j ∈ l)
         ↔ typeRule Sample.METRIC f a
           ∧ gateOpen (mergedOf (combineAllRollupFields [Sample.jobAvg])) f a).
Proof.
  apply (X8_links_exactly_by_rules Sample.METRIC
           (mergedOf (combineAllRollupFields [Sample.jobAvg]))
           (fieldsCreated Sample.codeUnitCompare
              (Some {| fc_fields := Some Sample.report |}))
           Sample.catalog).
  - vm_compute. repeat constructor.
  - repeat constructor.
  - destruct (combineFieldsAndAggs_cases Sample.METRIC
                (mergedOf (combineAllRollupFields [Sample.jobAvg]))
                (fieldsCreated Sample.codeUnitCompare
                   (Some {| fc_fields := Some Sample.report |}))
                Sample.catalog) as [[_ Hthrows]|[Hno _]]; [|exact Hno].
    vm_compute in Hthrows. discriminate Hthrows.
Defined.

(** X9 at the sample report and catalog. *)
Lemma X9_witness :
  Forall unlinked Sample.catalog
  ∧ ∀ i j f a lf la,
      s_fields (store (resolved
                         (run (Sample.world None Sample.report)
                              (getData Sample.codeUnitCompare Sample.METRIC "idx"
                                 false Sample.catalog)))) !! i = Some f →
      s_aggs (store (resolved
                       (run (Sample.world None Sample.report)
                            (getData Sample.codeUnitCompare Sample.METRIC "idx"
                               false Sample.catalog)))) !! j = Some a →
      f_aggs f = Some lf →
      a_fields a = Some la →
      (j ∈ lf ↔ i ∈ la).
Proof.
  split; [repeat constructor|].
  apply (X9_links_go_both_ways Sample.codeUnitCompare Sample.METRIC
           (Sample.world None Sample.report) "idx" false Sample.catalog
           [EvFieldCaps "idx"]).
  - repeat constructor.
  - vm_compute. reflexivity.
Defined.

(** X10 in rollup mode, at a job that lists [avg] for [age]. *)
Lemma X10_witness :
  Forall unlinked Sample.catalog
  ∧ ∀ f a,
      linkedIn (resolved
                  (run (Sample.world (Some [Sample.jobAvg]) Sample.report)
                       (getData Sample.codeUnitCompare Sample.METRIC "idx" true
                          Sample.catalog))) f a →
      f ∈ returnedFields
            (resolved
               (run (Sample.world (Some [Sample.jobAvg]) Sample.report)
                    (getData Sample.codeUnitCompare Sample.METRIC "idx" true
                       Sample.catalog)))
      ∧ (a_fields a ≠ None →
         a ∈ returnedAggs
               (resolved
                  (run (Sample.world (Some [Sample.jobAvg]) Sample.report)
                       (getData Sample.codeUnitCompare Sample.METRIC "idx" true
                          Sample.catalog)))).
Proof.
  split; [repeat constructor|].
  apply (X10_linked_objects_are_returned Sample.codeUnitCompare Sample.METRIC
           (Sample.world (Some [Sample.jobAvg]) Sample.report) "idx" true
           Sample.catalog
           [EvRollupJobs "idx"; EvIndexPattern "idx"; EvFieldCaps "rollup-backing-*"]).
  - repeat constructor.
  - vm_compute. reflexivity.
Defined.

(** X11 at a report with a field of type [geo_point] and fields that
    [createFields] leaves out. *)
Lemma X11_witness :
  Forall unlinked Sample.catalog
  ∧ ∀ f,
      f ∈ returnedFields
            (resolved
               (run (Sample.world None Sample.reportMixed)
                    (getData Sample.codeUnitCompare Sample.METRIC "idx" false
                       Sample.catalog))) →
      f_type f ∈ ["keyword"; "text"; "double"; "float"; "long"].
Proof.
  split; [repeat constructor|].
  apply (X11_returned_field_types Sample.codeUnitCompare Sample.METRIC
           (Sample.world None Sample.reportMixed) "idx" false Sample.catalog
           [EvFieldCaps "idx"]).
  - repeat constructor.
  - vm_compute. reflexivity.
Defined.

(** X12 at a report with a date field and an integer field. *)
Lemma X12_witness :
  fields (resolved
            (run (Sample.world None Sample.reportUnlinkable)
                 (getData Sample.codeUnitCompare Sample.METRIC "idx" false
                    Sample.catalog))) = []
  ∧ aggs (resolved
            (run (Sample.world None Sample.reportUnlinkable)
                 (getData Sample.codeUnitCompare Sample.METRIC "idx" false
                    Sample.catalog))) = [].
Proof.
  apply (X12_no_linkable_field_empty_result Sample.codeUnitCompare Sample.METRIC
           (Sample.world None Sample.reportUnlinkable) "idx" false Sample.catalog
           [EvFieldCaps "idx"]).
  - repeat constructor.
  - intros ix report k v d rest ty Hcaps Hin Hty.
    injection Hcaps as <-. unfold Sample.reportUnlinkable in Hin.
    rewrite !elem_of_cons, elem_of_nil in Hin.
    destruct Hin as [Hin|[Hin|[]]]; injection Hin as -> -> -> ->;
      injection Hty as <-; apply (bool_decide_unpack _); vm_compute; exact I.
  - vm_compute. reflexivity.
Defined.

(** X13 at a report of five distinct field names. *)
Lemma X13_witness :
  NoDup (f_id <$> returnedFields
                    (resolved
                       (run (Sample.world None Sample.reportMixed)
                            (getData Sample.codeUnitCompare Sample.METRIC "idx"
                               false Sample.catalog)))).
Proof.
  apply (X13_returned_ids_distinct Sample.codeUnitCompare Sample.METRIC
           (Sample.world None Sample.reportMixed) "idx" false Sample.catalog
           [EvFieldCaps "idx"]).
  - intros ix report Hcaps. injection Hcaps as <-.
    apply (bool_decide_unpack _). vm_compute. exact I.
  - vm_compute. reflexivity.
Defined.

(** X14 at the sample catalog, of which [count] is not returned. *)
Lemma X14_witness :
  agg_meta <$> returnedAggs
                 (resolved
                    (run (Sample.world None Sample.report)
                         (getData Sample.codeUnitCompare Sample.METRIC "idx" false
                            Sample.catalog)))
  `sublist_of` agg_meta <$> Sample.catalog.
Proof.
  apply (X14_returned_aggs_in_catalog_order Sample.codeUnitCompare Sample.METRIC
           (Sample.world None Sample.report) "idx" false Sample.catalog
           [EvFieldCaps "idx"]).
  vm_compute. reflexivity.
Defined.

(** X15 at the sample report, where [age] has two aggregations. *)
Lemma X15_witness :
  Forall unlinked Sample.catalog
  ∧ ∀ f l,
      f ∈ returnedFields
            (resolved
               (run (Sample.world None Sample.report)
                    (getData Sample.codeUnitCompare Sample.METRIC "idx" false
                       Sample.catalog))) →
      f_aggs f = Some l →
      StronglySorted lt l ∧ Forall (λ j, j < length Sample.catalog) l.
Proof.
  split; [repeat constructor|].
  apply (X15_field_aggs_in_catalog_order Sample.codeUnitCompare Sample.METRIC
           (Sample.world None Sample.report) "idx" false Sample.catalog
           [EvFieldCaps "idx"]).
  vm_compute. reflexivity.
Defined.

(** X16 at the sample report, where cardinality has two fields. *)
Lemma X16_witness :
  Forall unlinked Sample.catalog
  ∧ ∀ a l,
      a ∈ returnedAggs
            (resolved
               (run (Sample.world None Sample.report)
                    (getData Sample.codeUnitCompare Sample.METRIC "idx" false
                       Sample.catalog))) →
      a_fields a = Some l →
      NoDup l
      ∧ Forall (λ i, is_Some
                       (s_fields
                          (store
                             (resolved
                                (run (Sample.world None Sample.report)
                                     (getData Sample.codeUnitCompare Sample.METRIC
                                        "idx" false Sample.catalog)))) !! i)) l.
Proof.
  split; [repeat constructor|].
  apply (X16_agg_fields_without_repeats Sample.codeUnitCompare Sample.METRIC
           (Sample.world None Sample.report) "idx" false Sample.catalog
           [EvFieldCaps "idx"]).
  - repeat constructor.
  - vm_compute. reflexivity.
Defined.
